(** * The libclang translation-unit cache of [core::libclang::SourceIndex]

    A shallow embedding of [SourceIndex.cpp]: the map [translationUnits_]
    from file names to [StoredTranslationUnit] records, and the operations
    [getTranslationUnit], [removeTranslationUnit],
    [removeAllTranslationUnits], [primeEditorTranslationUnit] and
    [reprimeEditorTranslationUnit].

    libclang, the compilation database and the file system are outside the
    class.  Their answers at one call are collected in a [World]; the calls
    made into libclang are recorded, in order, in [clangCalls], and the
    messages passed to [LOG_ERROR_MESSAGE] in [errorLog].  The tracing on
    [std::cerr] and the [PerformanceTimer], both guarded by [verbose_ > 0],
    change neither the map nor the calls made and are left out. *)

From Stdlib Require Import ZArith List Lia.
From stdpp Require Import gmap strings list fin_maps.

Local Open Scope string_scope.
Local Open Scope list_scope.
Local Open Scope Z_scope.

(** ** Data *)

(** A [CXTranslationUnit] is an opaque pointer owned by libclang.  The model
    names a unit by its allocation number: the n-th successful
    [parseTranslationUnit] of the process returns unit [n]. *)
Abbreviation CXTranslationUnit := nat.

(** The editor buffers handed to libclang with every parse and reparse:
    pairs of a file name and its unsaved content. *)
Definition UnsavedFiles := list (string * string).

(** [struct StoredTranslationUnit]: the value type of [translationUnits_]. *)
Record StoredTranslationUnit := mkStored {
  compileArgs : list string;
  lastWriteTime : Z;
  tu : CXTranslationUnit
}.

(** [struct CompilationDatabase] has one member, the [boost::function]
    [compileArgsForTranslationUnit].  Whether it is set is fixed when the
    index is constructed; what it answers belongs to the [World]. *)
Record CompilationDatabase := mkCompilationDatabase {
  hasCompileArgsFn : bool
}.

(** The object returned by [getTranslationUnit]: a default-constructed
    [TranslationUnit()] is [None]; [TranslationUnit(filename, tu,
    &unsavedFiles_)] borrows the unit and points at the index's own
    overlay. *)
Record TranslationUnitHandle := mkHandle {
  handleFile : string;
  handleUnit : CXTranslationUnit
}.
Definition TranslationUnit := option TranslationUnitHandle.

(** One call into libclang, with what it returned. *)
Inductive ClangCall :=
  | ParseCall (filename : string) (args : list string)
      (unsaved : UnsavedFiles) (result : option CXTranslationUnit)
  | ReparseCall (unit : CXTranslationUnit) (unsaved : UnsavedFiles) (ret : Z)
  | DisposeCall (unit : CXTranslationUnit).

(** What the outside answers during one call of the index.
    [FilePath::lastWriteTime] is declared in [core/FilePath.hpp] and returns
    a [std::time_t] for every path; [statTime] is [None] for a file that
    cannot be read and [timeOnError] is the value the method returns then. *)
Record World := mkWorld {
  compileArgsFor : string → list string;
  statTime : string → option Z;
  timeOnError : Z;
  parseSucceeds : string → list string → UnsavedFiles → bool;
  reparseRet : CXTranslationUnit → UnsavedFiles → Z
}.

(** The index (its first four fields are the members of [SourceIndex]) and
    the bookkeeping of the process around it. *)
Record State := mkState {
  verbose_ : Z;
  compilationDB_ : CompilationDatabase;
  translationUnits_ : gmap string StoredTranslationUnit;
  unsavedFiles_ : UnsavedFiles;
  nextUnit : nat;
  clangCalls : list ClangCall;
  errorLog : list string
}.

(** ** A state monad for the member functions *)

Definition M (A : Type) : Type := State → A * State.

Definition ret {A} (a : A) : M A := λ s, (a, s).
Definition bind {A B} (c : M A) (k : A → M B) : M B :=
  λ s, let (a, s') := c s in k a s'.

Notation "x <- c ;; k" := (bind c (λ x, k))
  (at level 100, c at next level, right associativity).
Notation "c ;;; k" := (bind c (λ _, k))
  (at level 100, right associativity).

(** Field updates. *)
Definition withUnits (m : gmap string StoredTranslationUnit) (s : State)
    : State :=
  mkState (verbose_ s) (compilationDB_ s) m (unsavedFiles_ s)
    (nextUnit s) (clangCalls s) (errorLog s).

Definition addCall (c : ClangCall) (s : State) : State :=
  mkState (verbose_ s) (compilationDB_ s) (translationUnits_ s)
    (unsavedFiles_ s) (nextUnit s) (clangCalls s ++ [c]) (errorLog s).

Definition bumpUnit (s : State) : State :=
  mkState (verbose_ s) (compilationDB_ s) (translationUnits_ s)
    (unsavedFiles_ s) (S (nextUnit s)) (clangCalls s) (errorLog s).

Definition addError (msg : string) (s : State) : State :=
  mkState (verbose_ s) (compilationDB_ s) (translationUnits_ s)
    (unsavedFiles_ s) (nextUnit s) (clangCalls s) (errorLog s ++ [msg]).

Definition withUnsaved (u : UnsavedFiles) (s : State) : State :=
  mkState (verbose_ s) (compilationDB_ s) (translationUnits_ s)
    u (nextUnit s) (clangCalls s) (errorLog s).

Definition setUnits (m : gmap string StoredTranslationUnit) : M unit :=
  λ s, (tt, withUnits m s).

Definition logCall (c : ClangCall) : M unit :=
  λ s, (tt, addCall c s).

Definition freshUnit : M CXTranslationUnit :=
  λ s, (nextUnit s, bumpUnit s).

(** [LOG_ERROR_MESSAGE(msg)] *)
Definition LOG_ERROR_MESSAGE (msg : string) : M unit :=
  λ s, (tt, addError msg s).

(** ** libclang *)

(** [clang().parseTranslationUnit(index_, filename, args, unsaved, ...)]:
    a fresh unit, or [NULL]. *)
Definition parseTranslationUnit (w : World) (filename : string)
    (args : list string) : M (option CXTranslationUnit) :=
  λ s,
    if parseSucceeds w filename args (unsavedFiles_ s) then
      (u <- freshUnit ;;
       logCall (ParseCall filename args (unsavedFiles_ s) (Some u)) ;;;
       ret (Some u)) s
    else
      (logCall (ParseCall filename args (unsavedFiles_ s) None) ;;;
       ret None) s.

(** [clang().reparseTranslationUnit(tu, unsaved, ...)]: 0 on success. *)
Definition reparseTranslationUnit (w : World) (u : CXTranslationUnit) : M Z :=
  λ s,
    let r := reparseRet w u (unsavedFiles_ s) in
    (logCall (ReparseCall u (unsavedFiles_ s) r) ;;; ret r) s.

(** [clang().disposeTranslationUnit(tu)] *)
Definition disposeTranslationUnit (u : CXTranslationUnit) : M unit :=
  logCall (DisposeCall u).

(** ** The member functions of [SourceIndex] *)

(** The constructor: an empty map. *)
Definition newSourceIndex (compilationDB : CompilationDatabase)
    (verbose : Z) : State :=
  mkState verbose compilationDB ∅ [] 0%nat [] [].

Definition removeTranslationUnit (filename : string) : M unit :=
  λ s,
    match translationUnits_ s !! filename with
    | Some stored =>
        (disposeTranslationUnit (tu stored) ;;;
         setUnits (delete filename (translationUnits_ s))) s
    | None => (tt, s)
    end.

Fixpoint disposeEach (l : list (string * StoredTranslationUnit)) : M unit :=
  match l with
  | [] => ret tt
  | kv :: l' => disposeTranslationUnit (tu kv.2) ;;; disposeEach l'
  end.

(** The loop visits every entry once; [std::map] visits them in key order,
    [map_to_list] in the order of the map's own representation. *)
Definition removeAllTranslationUnits : M unit :=
  λ s,
    (disposeEach (map_to_list (translationUnits_ s)) ;;;
     setUnits ∅) s.

(** [filePath.lastWriteTime()] *)
Definition FilePath_lastWriteTime (w : World) (filename : string) : Z :=
  default (timeOnError w) (statTime w filename).

(** The value of the local [args] after lines 145-151, when the function
    has not returned there. *)
Definition fetchArgs (s : State) (w : World) (filename : string)
    : list string :=
  if hasCompileArgsFn (compilationDB_ s) then compileArgsFor w filename
  else [].

(** Lines 212-213: [if (verbose_ >= 2) args.push_back("-v")]. *)
Definition addVerboseArg (verbose : Z) (args : list string) : list string :=
  if bool_decide (2 ≤ verbose) then args ++ ["-v"] else args.

(** Lines 211-248: parse from scratch and store the result. *)
Definition parseAndStore (w : World) (filename : string)
    (args : list string) (lastWrite : Z) : M TranslationUnit :=
  λ s,
    let args := addVerboseArg (verbose_ s) args in
    (r <- parseTranslationUnit w filename args ;;
     match r with
     | Some u =>
         (λ s', setUnits (<[filename := mkStored args lastWrite u]>
                            (translationUnits_ s')) s') ;;;
         ret (Some (mkHandle filename u))
     | None =>
         LOG_ERROR_MESSAGE ("Error parsing translation unit " +:+ filename) ;;;
         ret None
     end) s.

(** Lines 206-248: drop what is there, then parse from scratch. *)
Definition rebuild (w : World) (filename : string) (args : list string)
    (lastWrite : Z) : M TranslationUnit :=
  removeTranslationUnit filename ;;;
  parseAndStore w filename args lastWrite.

Definition getTranslationUnit (filename : string) (alwaysReparse : bool)
    (w : World) : M TranslationUnit :=
  λ s,
    let args := fetchArgs s w filename in
    if hasCompileArgsFn (compilationDB_ s) && bool_decide (args = [])
    then (None, s)
    else
      let lastWrite := FilePath_lastWriteTime w filename in
      match translationUnits_ s !! filename with
      | Some stored =>
          if negb alwaysReparse
             && bool_decide (args = compileArgs stored)
             && bool_decide (lastWrite = lastWriteTime stored)
          then (Some (mkHandle filename (tu stored)), s)
          else if bool_decide (args = compileArgs stored) then
            (r <- reparseTranslationUnit w (tu stored) ;;
             if bool_decide (r = 0) then
               (λ s', setUnits
                        (<[filename := mkStored (compileArgs stored)
                                         lastWrite (tu stored)]>
                           (translationUnits_ s')) s') ;;;
               ret (Some (mkHandle filename (tu stored)))
             else
               LOG_ERROR_MESSAGE
                 ("Error re-parsing translation unit " +:+ filename) ;;;
               rebuild w filename args lastWrite) s
          else rebuild w filename args lastWrite s
      | None => rebuild w filename args lastWrite s
      end.

(** [getTranslationUnit(filename)]: [alwaysReparse] takes its default, which
    the class declaration sets to [false]. *)
Definition primeEditorTranslationUnit (filename : string) (w : World)
    : M unit :=
  λ s,
    match translationUnits_ s !! filename with
    | None => (getTranslationUnit filename false w ;;; ret tt) s
    | Some _ => (tt, s)
    end.

Definition reprimeEditorTranslationUnit (filename : string) (w : World)
    : M unit :=
  λ s,
    match translationUnits_ s !! filename with
    | Some _ => (getTranslationUnit filename false w ;;; ret tt) s
    | None => (tt, s)
    end.

(** Callers change the overlay through the [unsavedFiles()] accessor. *)
Definition updateUnsavedFiles (u : UnsavedFiles) : M unit :=
  λ s, (tt, withUnsaved u s).

(** ** Units alive in libclang *)

(** The units libclang holds after a sequence of calls, each with the file
    it was parsed from: a successful parse adds its unit, a dispose removes
    it, a reparse works in place. *)
Definition applyCall (live : gmap CXTranslationUnit string) (c : ClangCall)
    : gmap CXTranslationUnit string :=
  match c with
  | ParseCall f _ _ (Some u) => <[u := f]> live
  | ParseCall _ _ _ None => live
  | ReparseCall _ _ _ => live
  | DisposeCall u => delete u live
  end.

Definition liveUnits (cs : list ClangCall) : gmap CXTranslationUnit string :=
  foldl applyCall ∅ cs.

(** No file has two live units. *)
Definition onePerPath (live : gmap CXTranslationUnit string) : Prop :=
  ∀ u1 u2 p, live !! u1 = Some p → live !! u2 = Some p → u1 = u2.

(** A call that respects libclang's ownership rules: only live units are
    reparsed or disposed, and a file is parsed only while no unit of it is
    alive. *)
Definition callOk (live : gmap CXTranslationUnit string) (c : ClangCall)
    : Prop :=
  match c with
  | ParseCall f _ _ r =>
      (∀ u, live !! u ≠ Some f) ∧
      match r with Some u => live !! u = None | None => True end
  | ReparseCall u _ _ => is_Some (live !! u)
  | DisposeCall u => is_Some (live !! u)
  end.

Definition historyOk (cs : list ClangCall) : Prop :=
  ∀ cs1 c cs2, cs = cs1 ++ c :: cs2 → callOk (liveUnits cs1) c.

(** What holds of the index between two calls of its member functions. *)
Record Inv (s : State) : Prop := mkInv {
  inv_args : hasCompileArgsFn (compilationDB_ s) = true →
             ∀ p r, translationUnits_ s !! p = Some r → compileArgs r ≠ [];
  inv_owns : ∀ u p, liveUnits (clangCalls s) !! u = Some p ↔
                    ∃ r, translationUnits_ s !! p = Some r ∧ tu r = u;
  inv_bound : ∀ u p, liveUnits (clangCalls s) !! u = Some p →
                     (u < nextUnit s)%nat;
  inv_hist : historyOk (clangCalls s)
}.

(** The states the index can be in: constructed, then driven through its
    public member functions by any caller in any world. *)
Inductive reachable : State → Prop :=
  | reach_new db v : reachable (newSourceIndex db v)
  | reach_get s f a w :
      reachable s → reachable (getTranslationUnit f a w s).2
  | reach_remove s f :
      reachable s → reachable (removeTranslationUnit f s).2
  | reach_removeAll s :
      reachable s → reachable (removeAllTranslationUnits s).2
  | reach_prime s f w :
      reachable s → reachable (primeEditorTranslationUnit f w s).2
  | reach_reprime s f w :
      reachable s → reachable (reprimeEditorTranslationUnit f w s).2
  | reach_unsaved s u :
      reachable s → reachable (updateUnsavedFiles u s).2.

(** ** Observing calls *)

(** The libclang calls made between state [s] and a later state [s']. *)
Definition newCalls (s s' : State) : list ClangCall :=
  drop (length (clangCalls s)) (clangCalls s').

Definition isParse (c : ClangCall) : bool :=
  match c with ParseCall _ _ _ _ => true | _ => false end.
Definition isReparse (c : ClangCall) : bool :=
  match c with ReparseCall _ _ _ => true | _ => false end.
Definition isDispose (c : ClangCall) : bool :=
  match c with DisposeCall _ => true | _ => false end.

Definition countCalls (f : ClangCall → bool) (cs : list ClangCall) : nat :=
  length (List.filter f cs).

(** [getTranslationUnit filename] called once per element of [ws]. *)
Fixpoint getEach (filename : string) (ws : list (World * bool))
    : M (list TranslationUnit) :=
  match ws with
  | [] => ret []
  | wa :: ws' =>
      r <- getTranslationUnit filename wa.2 wa.1 ;;
      rs <- getEach filename ws' ;;
      ret (r :: rs)
  end.

(** The libclang calls of each of those calls. *)
Fixpoint callTraces (filename : string) (ws : list (World * bool))
    (s : State) : list (list ClangCall) :=
  match ws with
  | [] => []
  | wa :: ws' =>
      let s' := (getTranslationUnit filename wa.2 wa.1 s).2 in
      newCalls s s' :: callTraces filename ws' s'
  end.

(** A call that ended by parsing the file anew with success. *)
Definition successfulBuild (tr : list ClangCall) : bool :=
  match last tr with
  | Some (ParseCall _ _ _ (Some _)) => true
  | _ => false
  end.

(** The function goes past line 151. *)
Definition indexable (s : State) (w : World) (f : string) : Prop :=
  hasCompileArgsFn (compilationDB_ s) = true → compileArgsFor w f ≠ [].

Definition parseResult (w : World) (f : string) (args : list string)
    (s : State) : option CXTranslationUnit :=
  if parseSucceeds w f args (unsavedFiles_ s) then Some (nextUnit s)
  else None.

Definition disposalOf (o : option StoredTranslationUnit) : list ClangCall :=
  match o with Some st => [DisposeCall (tu st)] | None => [] end.

Definition disposals (l : list (string * StoredTranslationUnit))
    : list ClangCall :=
  (λ kv, DisposeCall (tu kv.2)) <$> l.

(** Every call of [getTranslationUnit] takes one of five ways. *)
Inductive GetCase (f : string) (a : bool) (w : World) (s : State) : Prop :=
  | case_unindexable :
      hasCompileArgsFn (compilationDB_ s) = true →
      compileArgsFor w f = [] →
      getTranslationUnit f a w s = (None, s) →
      GetCase f a w s
  | case_hit st :
      indexable s w f →
      translationUnits_ s !! f = Some st →
      fetchArgs s w f = compileArgs st →
      a = false →
      FilePath_lastWriteTime w f = lastWriteTime st →
      getTranslationUnit f a w s = (Some (mkHandle f (tu st)), s) →
      GetCase f a w s
  | case_reparse_ok st :
      indexable s w f →
      translationUnits_ s !! f = Some st →
      fetchArgs s w f = compileArgs st →
      a = true ∨ FilePath_lastWriteTime w f ≠ lastWriteTime st →
      reparseRet w (tu st) (unsavedFiles_ s) = 0 →
      getTranslationUnit f a w s =
        (Some (mkHandle f (tu st)),
         withUnits
           (<[f := mkStored (compileArgs st) (FilePath_lastWriteTime w f)
                     (tu st)]> (translationUnits_ s))
           (addCall (ReparseCall (tu st) (unsavedFiles_ s) 0) s)) →
      GetCase f a w s
  | case_reparse_failed st :
      indexable s w f →
      translationUnits_ s !! f = Some st →
      fetchArgs s w f = compileArgs st →
      a = true ∨ FilePath_lastWriteTime w f ≠ lastWriteTime st →
      reparseRet w (tu st) (unsavedFiles_ s) ≠ 0 →
      getTranslationUnit f a w s =
        rebuild w f (fetchArgs s w f) (FilePath_lastWriteTime w f)
          (addError ("Error re-parsing translation unit " +:+ f)
             (addCall (ReparseCall (tu st) (unsavedFiles_ s)
                         (reparseRet w (tu st) (unsavedFiles_ s))) s)) →
      GetCase f a w s
  | case_rebuild :
      indexable s w f →
      (∀ st, translationUnits_ s !! f = Some st →
             fetchArgs s w f ≠ compileArgs st) →
      getTranslationUnit f a w s =
        rebuild w f (fetchArgs s w f) (FilePath_lastWriteTime w f) s →
      GetCase f a w s.

(** Each trace of [trs] disposes the unit stored before it, if there is
    one, and then parses [f] with the arguments [args]; [prev] is the unit
    stored before the first of them. *)
Fixpoint rebuildsEvery (f : string) (args : list string)
    (prev : option CXTranslationUnit) (trs : list (list ClangCall)) : Prop :=
  match trs with
  | [] => True
  | tr :: trs' =>
      ∃ us r,
        tr = match prev with Some u => [DisposeCall u] | None => [] end ++
             [ParseCall f args us r] ∧
        rebuildsEvery f args r trs'
  end.

(** The world [w] with the time of [f] set to [t]. *)
Definition withStatTime (f : string) (t : option Z) (w : World) : World :=
  mkWorld (compileArgsFor w)
    (λ g, if decide (g = f) then t else statTime w g)
    (timeOnError w) (parseSucceeds w) (reparseRet w).

(** ** Example states and worlds *)

Definition ex_world (args : list string) (mtime : option Z) (parseOk : bool)
    (reparse : Z) : World :=
  mkWorld (λ _, args) (λ _, mtime) 0 (λ _ _ _, parseOk) (λ _ _, reparse).

Definition ex_w_ok : World := ex_world ["-I."] (Some 100) true 0.

(** A fresh index with a provider, silent. *)
Definition ex_new : State := newSourceIndex (mkCompilationDatabase true) 0.

(** A fresh index with a provider, at verbosity 2. *)
Definition ex_new_verbose : State :=
  newSourceIndex (mkCompilationDatabase true) 2.

(** ["a.cpp"] parsed once: stored with arguments [-I.], time 100, unit 0. *)
Definition ex_cached : State :=
  (getTranslationUnit "a.cpp" false ex_w_ok ex_new).2.

Definition ex_stored : StoredTranslationUnit := mkStored ["-I."] 100 0.

Definition ex_w_unindexable : World := ex_world [] (Some 777) true 0.

Definition ex_w_parse_fails : World := ex_world ["-O2"] (Some 100) false 0.

Definition ex_w_new_args : World := ex_world ["-O2"] (Some 100) true 0.

Definition ex_w_forced_bad : World := ex_world ["-I."] (Some 100) true 1.

Definition ex_w_touched : World := ex_world ["-I."] (Some 200) true 0.

Definition ex_w_touched_bad : World := ex_world ["-I."] (Some 200) true 1.

Definition ex_w_unreadable : World := ex_world ["-I."] None true 0.

(** Three worlds whose provider answers differ from one to the next. *)
Definition ex_three_builds : list (World * bool) :=
  [(ex_w_ok, false); (ex_w_new_args, false); (ex_w_ok, true)].

(** ** The remaining member functions and their callers *)

(** [getIndexedTranslationUnits]: the loop inserts, for every entry of
    [translationUnits_], the pair of its file name and its unit into a new
    [std::map]; [insert] leaves a key that is already there as it is. *)
Definition getIndexedTranslationUnits (s : State)
    : gmap string CXTranslationUnit :=
  foldl (λ units t,
           match units !! t.1 with
           | Some _ => units
           | None => <[t.1 := tu t.2]> units
           end)
    ∅ (map_to_list (translationUnits_ s)).

(** A libclang call that reported failure: a parse that returned [NULL], a
    reparse that returned non-zero. *)
Definition isFailedCall (c : ClangCall) : bool :=
  match c with
  | ParseCall _ _ _ None => true
  | ParseCall _ _ _ (Some _) => false
  | ReparseCall _ _ r => negb (bool_decide (r = 0))
  | DisposeCall _ => false
  end.

(** A call of one of the public member functions that change the index. *)
Inductive Request :=
  | ReqGet (filename : string) (alwaysReparse : bool) (w : World)
  | ReqRemove (filename : string)
  | ReqRemoveAll
  | ReqPrime (filename : string) (w : World)
  | ReqReprime (filename : string) (w : World).

Definition perform (r : Request) : M unit :=
  match r with
  | ReqGet f a w => getTranslationUnit f a w ;;; ret tt
  | ReqRemove f => removeTranslationUnit f
  | ReqRemoveAll => removeAllTranslationUnits
  | ReqPrime f w => primeEditorTranslationUnit f w
  | ReqReprime f w => reprimeEditorTranslationUnit f w
  end.

Definition performAll (rs : list Request) (s : State) : State :=
  foldl (λ s r, (perform r s).2) s rs.

(** *** Construction and destruction *)

(** A [CXIndex], like a unit, is an opaque pointer; [None] is [NULL]. *)
Abbreviation CXIndex := nat.

(** The object with its [index_] member, which the functions above never
    read or write. *)
Record SourceIndexObject := mkObject {
  members : State;
  index_ : option CXIndex
}.

(** What libclang sees of an object's life: the calls on units, and the
    creation and disposal of the index. *)
Inductive LibclangEvent :=
  | UnitEvent (c : ClangCall)
  | IndexCreated (excludeDeclarationsFromPCH displayDiagnostics : Z)
      (result : option CXIndex)
  | IndexDisposed (index : CXIndex).

(** [SourceIndex::SourceIndex(compilationDB, verbose)]; [created] is what
    [clang().createIndex] returns. *)
Definition SourceIndex_construct (compilationDB : CompilationDatabase)
    (verbose : Z) (created : option CXIndex)
    : SourceIndexObject * list LibclangEvent :=
  (mkObject (newSourceIndex compilationDB verbose) created,
   [IndexCreated 0 (if bool_decide (0 < verbose) then 1 else 0) created]).

(** [SourceIndex::~SourceIndex()]: remove all units, then dispose the index
    unless it is [NULL].  The libclang entry points are C functions, so the
    [catch(...)] around the two steps has nothing to catch here. *)
Definition SourceIndex_destruct (o : SourceIndexObject)
    : State * list LibclangEvent :=
  let s' := (removeAllTranslationUnits (members o)).2 in
  (s',
   (UnitEvent <$> newCalls (members o) s') ++
   match index_ o with
   | Some i => [IndexDisposed i]
   | None => []
   end).

(** *** The session's index, [RSourceIndex.cpp] *)

(** What [rCompilationDatabase()] and [userSettings().clangVerbose()]
    answer at the time of a call. *)
Record Settings := mkSettings {
  rCompilationDatabase : CompilationDatabase;
  clangVerbose : Z
}.

(** [rSourceIndex()]: [p] is the pointee of [s_pRSourceIndex], [None] while
    the pointer is [NULL].  The function returns a reference to the
    pointee; the second component is the pointee after the call. *)
Definition rSourceIndex (env : Settings) (p : option State)
    : State * option State :=
  match p with
  | None =>
      let s := newSourceIndex (rCompilationDatabase env) (clangVerbose env) in
      (s, Some s)
  | Some s => (s, Some s)
  end.

(** [rSourceIndex().m(...)] for a member function [m]: the call works on
    the pointee in place. *)
Definition onRSourceIndex (env : Settings) (r : Request) (p : option State)
    : option State :=
  Some (perform r (rSourceIndex env p).1).2.

Definition onRSourceIndexAll (l : list (Settings * Request))
    (p : option State) : option State :=
  foldl (λ p er, onRSourceIndex er.1 er.2 p) p l.

(** From [s] to [s']: configuration and overlay kept, histories extended,
    no unit number reused. *)
Definition grows (s s' : State) : Prop :=
  verbose_ s' = verbose_ s ∧
  compilationDB_ s' = compilationDB_ s ∧
  unsavedFiles_ s' = unsavedFiles_ s ∧
  clangCalls s `prefix_of` clangCalls s' ∧
  errorLog s `prefix_of` errorLog s' ∧
  (nextUnit s ≤ nextUnit s')%nat.

(** ["b.cpp"] parsed after ["a.cpp"]: two records, units 0 and 1. *)
Definition ex_two_files : State :=
  (getTranslationUnit "b.cpp" false ex_w_ok ex_cached).2.

(** * Lemmas *)

Ltac run_code :=
  unfold getTranslationUnit, rebuild, removeTranslationUnit,
    parseTranslationUnit, reparseTranslationUnit, disposeTranslationUnit,
    primeEditorTranslationUnit, reprimeEditorTranslationUnit,
    updateUnsavedFiles, LOG_ERROR_MESSAGE, setUnits, logCall, freshUnit,
    bind, ret.

Lemma liveUnits_snoc cs c :
  liveUnits (cs ++ [c]) = applyCall (liveUnits cs) c.
Proof. unfold liveUnits. by rewrite foldl_app. Qed.

Lemma historyOk_nil : historyOk [].
Proof. intros [|] ? ? ?; discriminate. Qed.

Lemma historyOk_snoc cs c :
  historyOk cs → callOk (liveUnits cs) c → historyOk (cs ++ [c]).
Proof.
  intros Hcs Hc cs1 c' cs2 E.
  destruct (decide (cs2 = [])) as [->|Hne].
  - apply app_inj_tail in E as [-> ->]. exact Hc.
  - destruct (exists_last Hne) as (cs2' & x & ->).
    rewrite app_comm_cons, app_assoc in E.
    apply app_inj_tail in E as [-> _]. by eapply Hcs.
Qed.

Lemma historyOk_prefix cs1 cs2 : historyOk (cs1 ++ cs2) → historyOk cs1.
Proof.
  intros H a c b ->. apply (H a c (b ++ cs2)). by rewrite <- app_assoc.
Qed.

Lemma applyCall_onePerPath live c :
  onePerPath live → callOk live c → onePerPath (applyCall live c).
Proof.
  intros Hone Hc. destruct c as [f a us [u|]|u us r|u]; simpl in *; try done.
  - destruct Hc as [Hf Hu]. intros u1 u2 p.
    rewrite !lookup_insert. repeat case_decide; naive_solver.
  - intros u1 u2 p H1 H2.
    apply lookup_delete_Some in H1 as [_ H1].
    apply lookup_delete_Some in H2 as [_ H2]. by eapply Hone.
Qed.

Lemma historyOk_onePerPath cs : historyOk cs → onePerPath (liveUnits cs).
Proof.
  induction cs as [|c cs IH] using rev_ind; intros H.
  - intros u1 u2 p H1. unfold liveUnits in H1. simpl in H1.
    by rewrite lookup_empty in H1.
  - rewrite liveUnits_snoc. apply applyCall_onePerPath.
    + apply IH. by eapply historyOk_prefix.
    + apply (H cs c []). done.
Qed.

(** ** The code, case by case *)

Lemma removeTranslationUnit_Some f s st :
  translationUnits_ s !! f = Some st →
  removeTranslationUnit f s =
  (tt, withUnits (delete f (translationUnits_ s))
         (addCall (DisposeCall (tu st)) s)).
Proof. intros H. unfold removeTranslationUnit. by rewrite H. Qed.

Lemma removeTranslationUnit_None f s :
  translationUnits_ s !! f = None → removeTranslationUnit f s = (tt, s).
Proof. intros H. unfold removeTranslationUnit. by rewrite H. Qed.

Lemma parseAndStore_ok w f args lw s :
  let args' := addVerboseArg (verbose_ s) args in
  parseSucceeds w f args' (unsavedFiles_ s) = true →
  parseAndStore w f args lw s =
  (Some (mkHandle f (nextUnit s)),
   withUnits (<[f := mkStored args' lw (nextUnit s)]> (translationUnits_ s))
     (addCall (ParseCall f args' (unsavedFiles_ s) (Some (nextUnit s)))
        (bumpUnit s))).
Proof.
  intros args' H. unfold parseAndStore, parseTranslationUnit, bind at 1.
  fold args'. by rewrite H.
Qed.

Lemma parseAndStore_fail w f args lw s :
  let args' := addVerboseArg (verbose_ s) args in
  parseSucceeds w f args' (unsavedFiles_ s) = false →
  parseAndStore w f args lw s =
  (None,
   addError ("Error parsing translation unit " +:+ f)
     (addCall (ParseCall f args' (unsavedFiles_ s) None) s)).
Proof.
  intros args' H. unfold parseAndStore, parseTranslationUnit, bind at 1.
  fold args'. by rewrite H.
Qed.

Lemma rebuild_Some w f args lw s st :
  translationUnits_ s !! f = Some st →
  rebuild w f args lw s =
  parseAndStore w f args lw
    (withUnits (delete f (translationUnits_ s))
       (addCall (DisposeCall (tu st)) s)).
Proof.
  intros H. unfold rebuild, bind.
  by rewrite (removeTranslationUnit_Some _ _ _ H).
Qed.

Lemma rebuild_None w f args lw s :
  translationUnits_ s !! f = None →
  rebuild w f args lw s = parseAndStore w f args lw s.
Proof.
  intros H. unfold rebuild, bind.
  by rewrite (removeTranslationUnit_None _ _ H).
Qed.

(** Line 150: the provider is set and answers with no arguments. *)
Lemma getTranslationUnit_unindexable f a w s :
  hasCompileArgsFn (compilationDB_ s) = true →
  compileArgsFor w f = [] →
  getTranslationUnit f a w s = (None, s).
Proof.
  intros Hdb Hargs. unfold getTranslationUnit, fetchArgs.
  rewrite Hdb, Hargs. done.
Qed.

Lemma indexable_guard s w f :
  indexable s w f →
  hasCompileArgsFn (compilationDB_ s) && bool_decide (fetchArgs s w f = [])
  = false.
Proof.
  unfold indexable, fetchArgs. intros H.
  destruct (hasCompileArgsFn (compilationDB_ s)); [|done].
  simpl. apply bool_decide_eq_false. by apply H.
Qed.

(** Line 170: nothing to do. *)
Lemma getTranslationUnit_hit f w s st :
  indexable s w f →
  translationUnits_ s !! f = Some st →
  fetchArgs s w f = compileArgs st →
  FilePath_lastWriteTime w f = lastWriteTime st →
  getTranslationUnit f false w s = (Some (mkHandle f (tu st)), s).
Proof.
  intros Hi Hf Ha Ht. unfold getTranslationUnit.
  rewrite (indexable_guard _ _ _ Hi), Hf. simpl.
  by rewrite !bool_decide_eq_true_2.
Qed.

(** Lines 174-198: same arguments, reparse asked for or needed, and
    libclang reports success. *)
Lemma getTranslationUnit_reparse_ok f a w s st :
  indexable s w f →
  translationUnits_ s !! f = Some st →
  fetchArgs s w f = compileArgs st →
  a = true ∨ FilePath_lastWriteTime w f ≠ lastWriteTime st →
  reparseRet w (tu st) (unsavedFiles_ s) = 0 →
  getTranslationUnit f a w s =
  (Some (mkHandle f (tu st)),
   withUnits (<[f := mkStored (compileArgs st) (FilePath_lastWriteTime w f)
                        (tu st)]> (translationUnits_ s))
     (addCall (ReparseCall (tu st) (unsavedFiles_ s) 0) s)).
Proof.
  intros Hi Hf Ha Hwhy Hr. unfold getTranslationUnit.
  rewrite (indexable_guard _ _ _ Hi), Hf.
  replace (negb a && _ && _) with false.
  2:{ destruct Hwhy as [->|Hne]; [done|].
      rewrite (bool_decide_eq_false_2 _ Hne). by rewrite andb_false_r. }
  rewrite (bool_decide_eq_true_2 _ Ha).
  unfold reparseTranslationUnit, bind, logCall, ret, setUnits.
  rewrite Hr. done.
Qed.

(** Lines 199-209: same arguments, libclang reports a failed reparse; the
    function logs and falls through to the rebuild. *)
Lemma getTranslationUnit_reparse_failed f a w s st :
  indexable s w f →
  translationUnits_ s !! f = Some st →
  fetchArgs s w f = compileArgs st →
  a = true ∨ FilePath_lastWriteTime w f ≠ lastWriteTime st →
  reparseRet w (tu st) (unsavedFiles_ s) ≠ 0 →
  getTranslationUnit f a w s =
  rebuild w f (fetchArgs s w f) (FilePath_lastWriteTime w f)
    (addError ("Error re-parsing translation unit " +:+ f)
       (addCall (ReparseCall (tu st) (unsavedFiles_ s)
                   (reparseRet w (tu st) (unsavedFiles_ s))) s)).
Proof.
  intros Hi Hf Ha Hwhy Hr. unfold getTranslationUnit.
  rewrite (indexable_guard _ _ _ Hi), Hf.
  replace (negb a && _ && _) with false.
  2:{ destruct Hwhy as [->|Hne]; [done|].
      rewrite (bool_decide_eq_false_2 _ Hne). by rewrite andb_false_r. }
  rewrite (bool_decide_eq_true_2 _ Ha).
  unfold reparseTranslationUnit, bind at 1.
  unfold logCall, ret, bind at 1. simpl.
  rewrite (bool_decide_eq_false_2 _ Hr).
  unfold LOG_ERROR_MESSAGE, bind at 1. done.
Qed.

(** Lines 206-209: the arguments changed. *)
Lemma getTranslationUnit_args_changed f a w s st :
  indexable s w f →
  translationUnits_ s !! f = Some st →
  fetchArgs s w f ≠ compileArgs st →
  getTranslationUnit f a w s =
  rebuild w f (fetchArgs s w f) (FilePath_lastWriteTime w f) s.
Proof.
  intros Hi Hf Ha. unfold getTranslationUnit.
  rewrite (indexable_guard _ _ _ Hi), Hf.
  rewrite (bool_decide_eq_false_2 _ Ha).
  by rewrite andb_false_r.
Qed.

(** Lines 206-209: nothing stored yet. *)
Lemma getTranslationUnit_new f a w s :
  indexable s w f →
  translationUnits_ s !! f = None →
  getTranslationUnit f a w s =
  rebuild w f (fetchArgs s w f) (FilePath_lastWriteTime w f) s.
Proof.
  intros Hi Hf. unfold getTranslationUnit.
  by rewrite (indexable_guard _ _ _ Hi), Hf.
Qed.

(** ** The invariant is kept by every member function *)

Lemma Inv_ext s s' :
  compilationDB_ s' = compilationDB_ s →
  translationUnits_ s' = translationUnits_ s →
  nextUnit s' = nextUnit s →
  clangCalls s' = clangCalls s →
  Inv s → Inv s'.
Proof.
  intros E1 E2 E3 E4 [H1 H2 H3 H4].
  split; rewrite ?E1, ?E2, ?E3, ?E4; done.
Qed.

Lemma Inv_new db v : Inv (newSourceIndex db v).
Proof.
  split; simpl.
  - intros _ p r H. by rewrite lookup_empty in H.
  - intros u p. unfold liveUnits; simpl. rewrite lookup_empty.
    split; [done|]. intros (r & H & _). by rewrite lookup_empty in H.
  - intros u p. unfold liveUnits; simpl. by rewrite lookup_empty.
  - apply historyOk_nil.
Qed.

Lemma Inv_addError msg s : Inv s → Inv (addError msg s).
Proof. by apply Inv_ext. Qed.

Lemma Inv_disposed s f st :
  Inv s → translationUnits_ s !! f = Some st →
  Inv (withUnits (delete f (translationUnits_ s))
         (addCall (DisposeCall (tu st)) s)).
Proof.
  intros [Ha Ho Hb Hh] Hf.
  assert (Hlive : liveUnits (clangCalls s) !! tu st = Some f)
    by (apply Ho; eauto).
  split; simpl.
  - intros Hdb p r Hp. apply lookup_delete_Some in Hp as [_ Hp]. eauto.
  - intros u p. rewrite liveUnits_snoc. simpl.
    rewrite lookup_delete_Some. split.
    + intros [Hne Hu]. apply Ho in Hu as (r & Hr & Hru).
      exists r. split; [|done]. apply lookup_delete_Some. split; [|done].
      intros <-. congruence.
    + intros (r & Hr & <-). apply lookup_delete_Some in Hr as [Hne Hr].
      assert (Hl : liveUnits (clangCalls s) !! tu r = Some p)
        by (apply Ho; eauto).
      split; [|done]. intros E. rewrite <- E in Hl. congruence.
  - intros u p. rewrite liveUnits_snoc. simpl.
    intros [_ Hu]%lookup_delete_Some. eauto.
  - apply historyOk_snoc; [done|]. simpl. eauto.
Qed.

Lemma Inv_removeTranslationUnit f s :
  Inv s → Inv (removeTranslationUnit f s).2.
Proof.
  intros HI. destruct (translationUnits_ s !! f) as [st|] eqn:Hf.
  - rewrite (removeTranslationUnit_Some _ _ _ Hf). by apply Inv_disposed.
  - by rewrite (removeTranslationUnit_None _ _ Hf).
Qed.

Lemma Inv_reparsed s f st us r lw :
  Inv s → translationUnits_ s !! f = Some st →
  Inv (withUnits
         (<[f := mkStored (compileArgs st) lw (tu st)]> (translationUnits_ s))
         (addCall (ReparseCall (tu st) us r) s)).
Proof.
  intros [Ha Ho Hb Hh] Hf.
  split; simpl.
  - intros Hdb p x Hp. apply lookup_insert_Some in Hp as [[<- <-]|[_ Hp]].
    + simpl. eauto.
    + eauto.
  - intros u p. rewrite liveUnits_snoc. simpl. rewrite Ho. split.
    + intros (x & Hx & <-). destruct (decide (f = p)) as [<-|Hne].
      * eexists. rewrite lookup_insert_eq. split; [done|]. simpl. congruence.
      * exists x. by rewrite lookup_insert_ne.
    + intros (x & Hx & <-). apply lookup_insert_Some in Hx as [[<- <-]|[_ Hx]].
      * simpl. eauto.
      * eauto.
  - intros u p. rewrite liveUnits_snoc. simpl. eauto.
  - apply historyOk_snoc; [done|]. simpl. exists f. apply Ho. eauto.
Qed.

Lemma Inv_reparse_failed s f st us r :
  Inv s → translationUnits_ s !! f = Some st →
  Inv (addCall (ReparseCall (tu st) us r) s).
Proof.
  intros [Ha Ho Hb Hh] Hf.
  split; simpl; try done.
  - intros u p. rewrite liveUnits_snoc. simpl. apply Ho.
  - intros u p. rewrite liveUnits_snoc. simpl. eauto.
  - apply historyOk_snoc; [done|]. simpl. exists f. apply Ho. eauto.
Qed.

Lemma Inv_parsed s f args us lw :
  Inv s → translationUnits_ s !! f = None →
  (hasCompileArgsFn (compilationDB_ s) = true → args ≠ []) →
  Inv (withUnits (<[f := mkStored args lw (nextUnit s)]> (translationUnits_ s))
         (addCall (ParseCall f args us (Some (nextUnit s))) (bumpUnit s))).
Proof.
  intros [Ha Ho Hb Hh] Hf Hargs.
  assert (Hfree : liveUnits (clangCalls s) !! nextUnit s = None).
  { destruct (liveUnits (clangCalls s) !! nextUnit s) eqn:E; [|done].
    apply Hb in E. lia. }
  assert (Hnone : ∀ u, liveUnits (clangCalls s) !! u ≠ Some f).
  { intros u Hu. apply Ho in Hu as (r & Hr & _). congruence. }
  split; simpl.
  - intros Hdb p x Hp. apply lookup_insert_Some in Hp as [[<- <-]|[_ Hp]].
    + simpl. eauto.
    + eauto.
  - intros u p. rewrite liveUnits_snoc. simpl.
    rewrite lookup_insert_Some. split.
    + intros [[<- <-]|[Hne Hu]].
      * eexists. rewrite lookup_insert_eq. done.
      * apply Ho in Hu as (x & Hx & <-). exists x. split; [|done].
        rewrite lookup_insert_ne; [done|]. intros <-. congruence.
    + intros (x & Hx & <-). apply lookup_insert_Some in Hx as [[<- <-]|[Hne Hx]].
      * simpl. by left.
      * right. assert (Hl : liveUnits (clangCalls s) !! tu x = Some p)
          by (apply Ho; eauto).
        split; [|done]. intros E. rewrite <- E in Hl. congruence.
  - intros u p. rewrite liveUnits_snoc. simpl.
    intros [[<- <-]|[_ Hu]]%lookup_insert_Some; [lia|].
    apply Hb in Hu. lia.
  - apply historyOk_snoc; [done|]. simpl. done.
Qed.

Lemma Inv_parse_failed s f args us :
  Inv s → translationUnits_ s !! f = None →
  Inv (addCall (ParseCall f args us None) s).
Proof.
  intros [Ha Ho Hb Hh] Hf.
  split; simpl; try done.
  - intros u p. rewrite liveUnits_snoc. simpl. apply Ho.
  - intros u p. rewrite liveUnits_snoc. simpl. eauto.
  - apply historyOk_snoc; [done|]. simpl. split; [|done].
    intros u Hu. apply Ho in Hu as (r & Hr & _). congruence.
Qed.

Lemma addVerboseArg_nonempty v args : args ≠ [] → addVerboseArg v args ≠ [].
Proof.
  unfold addVerboseArg. intros H. case_bool_decide; [|done].
  intros E. by apply app_eq_nil in E as [? _].
Qed.

Lemma Inv_parseAndStore w f args lw s :
  Inv s → translationUnits_ s !! f = None →
  (hasCompileArgsFn (compilationDB_ s) = true → args ≠ []) →
  Inv (parseAndStore w f args lw s).2.
Proof.
  intros HI Hf Hargs.
  destruct (parseSucceeds w f (addVerboseArg (verbose_ s) args)
              (unsavedFiles_ s)) eqn:Hp.
  - rewrite (parseAndStore_ok _ _ _ _ _ Hp). simpl.
    apply Inv_parsed; [done..|]. intros Hdb.
    by apply addVerboseArg_nonempty, Hargs.
  - rewrite (parseAndStore_fail _ _ _ _ _ Hp). simpl.
    by apply Inv_addError, Inv_parse_failed.
Qed.

Lemma Inv_rebuild w f args lw s :
  Inv s → (hasCompileArgsFn (compilationDB_ s) = true → args ≠ []) →
  Inv (rebuild w f args lw s).2.
Proof.
  intros HI Hargs.
  destruct (translationUnits_ s !! f) as [st|] eqn:Hf.
  - rewrite (rebuild_Some _ _ _ _ _ _ Hf).
    apply Inv_parseAndStore; [by apply Inv_disposed| |done].
    simpl. apply lookup_delete_eq.
  - rewrite (rebuild_None _ _ _ _ _ Hf). by apply Inv_parseAndStore.
Qed.

Lemma fetchArgs_nonempty s w f :
  indexable s w f →
  hasCompileArgsFn (compilationDB_ s) = true → fetchArgs s w f ≠ [].
Proof. unfold indexable, fetchArgs. intros H Hdb. rewrite Hdb. auto. Qed.

Lemma indexable_dec s w f :
  indexable s w f ∨
  (hasCompileArgsFn (compilationDB_ s) = true ∧ compileArgsFor w f = []).
Proof.
  unfold indexable. destruct (hasCompileArgsFn (compilationDB_ s)).
  - destruct (compileArgsFor w f); [by right|by left].
  - by left.
Qed.

Lemma Inv_getTranslationUnit f a w s :
  Inv s → Inv (getTranslationUnit f a w s).2.
Proof.
  intros HI.
  destruct (indexable_dec s w f) as [Hi|[Hdb Hnil]];
    [|by rewrite getTranslationUnit_unindexable].
  pose proof (fetchArgs_nonempty _ _ _ Hi) as Hargs.
  destruct (translationUnits_ s !! f) as [st|] eqn:Hf.
  2:{ rewrite getTranslationUnit_new by done. by apply Inv_rebuild. }
  destruct (decide (fetchArgs s w f = compileArgs st)) as [Ha|Ha].
  2:{ rewrite (getTranslationUnit_args_changed _ _ _ _ st) by done.
      by apply Inv_rebuild. }
  assert (Hcases : (a = true ∨
                     FilePath_lastWriteTime w f ≠ lastWriteTime st) ∨
                    (a = false ∧
                     FilePath_lastWriteTime w f = lastWriteTime st)).
  { destruct a; [by left; left|].
    destruct (decide (FilePath_lastWriteTime w f = lastWriteTime st));
      [by right|by left; right]. }
  destruct Hcases as [Hwhy|[-> Ht]].
  - destruct (decide (reparseRet w (tu st) (unsavedFiles_ s) = 0)) as [Hr|Hr].
    + rewrite (getTranslationUnit_reparse_ok _ _ _ _ st) by done.
      by apply Inv_reparsed.
    + rewrite (getTranslationUnit_reparse_failed _ _ _ _ st) by done.
      apply Inv_rebuild; [|done].
      by apply Inv_addError, (Inv_reparse_failed _ f).
  - by rewrite (getTranslationUnit_hit _ _ _ st).
Qed.

Lemma disposeEach_state l s :
  (disposeEach l s).2 =
  mkState (verbose_ s) (compilationDB_ s) (translationUnits_ s)
    (unsavedFiles_ s) (nextUnit s) (clangCalls s ++ disposals l)
    (errorLog s).
Proof.
  revert s. induction l as [|kv l IH]; intros s.
  - simpl. unfold ret. simpl. rewrite app_nil_r. by destruct s.
  - simpl. run_code. simpl. rewrite IH. simpl.
    by rewrite <- app_assoc.
Qed.

Lemma disposals_ok l : ∀ cs,
  historyOk cs → NoDup l.*1 →
  (∀ p r, (p, r) ∈ l → liveUnits cs !! tu r = Some p) →
  historyOk (cs ++ disposals l) ∧
  ∀ u p, liveUnits (cs ++ disposals l) !! u = Some p →
         liveUnits cs !! u = Some p ∧ ∀ q r, (q, r) ∈ l → tu r ≠ u.
Proof.
  induction l as [|[k v] l IH]; intros cs Hh Hnd Hl.
  - simpl. rewrite app_nil_r. split; [done|].
    intros u p Hu. split; [done|]. intros q r Hin. by apply elem_of_nil in Hin.
  - simpl in *. apply NoDup_cons in Hnd as [Hk Hnd].
    assert (Hkv : liveUnits cs !! tu v = Some k) by (apply Hl; left).
    destruct (IH (cs ++ [DisposeCall (tu v)])) as [Hh' Hl']; [| done | |].
    + apply historyOk_snoc; [done|]. simpl. eauto.
    + intros p r Hin. rewrite liveUnits_snoc. simpl.
      apply lookup_delete_Some. split; [|apply Hl; by right].
      intros E. assert (Hp : liveUnits cs !! tu r = Some p)
        by (apply Hl; by right).
      rewrite <- E in Hp. assert (p = k) as -> by congruence.
      apply Hk. apply list_elem_of_fmap. by exists (k, r).
    + rewrite <- app_assoc in Hh', Hl'. simpl in Hh', Hl'.
      split; [done|]. intros u p Hu.
      apply Hl' in Hu as [Hu Hnot]. rewrite liveUnits_snoc in Hu.
      simpl in Hu. apply lookup_delete_Some in Hu as [Hne Hu].
      split; [done|]. intros q r Hin.
      apply elem_of_cons in Hin as [[= -> ->]|Hin]; [done|]. eauto.
Qed.

Lemma Inv_removeAllTranslationUnits s :
  Inv s → Inv (removeAllTranslationUnits s).2.
Proof.
  intros [Ha Ho Hb Hh]. unfold removeAllTranslationUnits, bind.
  pose proof (disposeEach_state (map_to_list (translationUnits_ s)) s) as E.
  destruct (disposeEach _ s) as [[] s']. simpl in E. subst s'.
  unfold setUnits. simpl.
  destruct (disposals_ok (map_to_list (translationUnits_ s)) (clangCalls s))
    as [Hh' Hl']; [done | apply NoDup_fst_map_to_list | |].
  { intros p r Hin. apply elem_of_map_to_list in Hin. apply Ho. eauto. }
  assert (Hempty : ∀ u p,
    liveUnits (clangCalls s ++ disposals (map_to_list (translationUnits_ s)))
      !! u ≠ Some p).
  { intros u p Hu. apply Hl' in Hu as [Hu Hnot].
    apply Ho in Hu as (r & Hr & Hru). apply (Hnot p r); [|done].
    by apply elem_of_map_to_list. }
  split; simpl.
  - intros _ p r H. by rewrite lookup_empty in H.
  - intros u p. split; [by intros ?%Hempty|].
    intros (r & H & _). by rewrite lookup_empty in H.
  - intros u p ?%Hempty. done.
  - done.
Qed.

Theorem reachable_Inv s : reachable s → Inv s.
Proof.
  induction 1 as [db v|s f a w _ IH|s f _ IH|s _ IH|s f w _ IH|s f w _ IH
                 |s u _ IH].
  - apply Inv_new.
  - by apply Inv_getTranslationUnit.
  - by apply Inv_removeTranslationUnit.
  - by apply Inv_removeAllTranslationUnits.
  - unfold primeEditorTranslationUnit.
    destruct (translationUnits_ s !! f); [done|].
    unfold bind. pose proof (Inv_getTranslationUnit f false w s IH).
    by destruct (getTranslationUnit f false w s).
  - unfold reprimeEditorTranslationUnit.
    destruct (translationUnits_ s !! f); [|done].
    unfold bind. pose proof (Inv_getTranslationUnit f false w s IH).
    by destruct (getTranslationUnit f false w s).
  - by eapply Inv_ext, IH.
Qed.

(** ** What a rebuild does *)

Lemma newCalls_app s s' l :
  clangCalls s' = clangCalls s ++ l → newCalls s s' = l.
Proof. intros E. unfold newCalls. rewrite E. apply drop_app_length. Qed.

Lemma newCalls_same s : newCalls s s = [].
Proof. apply newCalls_app. by rewrite app_nil_r. Qed.

Lemma parseAndStore_spec w f args lw s :
  let args' := addVerboseArg (verbose_ s) args in
  let res := parseResult w f args' s in
  let s' := (parseAndStore w f args lw s).2 in
  (parseAndStore w f args lw s).1 = mkHandle f <$> res ∧
  clangCalls s' = clangCalls s ++ [ParseCall f args' (unsavedFiles_ s) res] ∧
  translationUnits_ s' =
    match res with
    | Some u => <[f := mkStored args' lw u]> (translationUnits_ s)
    | None => translationUnits_ s
    end ∧
  errorLog s' =
    errorLog s ++
    match res with
    | Some _ => []
    | None => ["Error parsing translation unit " +:+ f]
    end ∧
  verbose_ s' = verbose_ s ∧ compilationDB_ s' = compilationDB_ s ∧
  unsavedFiles_ s' = unsavedFiles_ s.
Proof.
  intros args' res s'. subst res s'. unfold parseResult.
  destruct (parseSucceeds w f args' (unsavedFiles_ s)) eqn:Hp.
  - rewrite (parseAndStore_ok _ _ _ _ _ Hp). simpl.
    by rewrite app_nil_r.
  - by rewrite (parseAndStore_fail _ _ _ _ _ Hp).
Qed.

Lemma rebuild_spec w f args lw s :
  let args' := addVerboseArg (verbose_ s) args in
  let res := parseResult w f args' s in
  let s' := (rebuild w f args lw s).2 in
  (rebuild w f args lw s).1 = mkHandle f <$> res ∧
  clangCalls s' =
    clangCalls s ++ disposalOf (translationUnits_ s !! f) ++
    [ParseCall f args' (unsavedFiles_ s) res] ∧
  translationUnits_ s' =
    match res with
    | Some u => <[f := mkStored args' lw u]> (delete f (translationUnits_ s))
    | None => delete f (translationUnits_ s)
    end ∧
  errorLog s' =
    errorLog s ++
    match res with
    | Some _ => []
    | None => ["Error parsing translation unit " +:+ f]
    end ∧
  verbose_ s' = verbose_ s ∧ compilationDB_ s' = compilationDB_ s ∧
  unsavedFiles_ s' = unsavedFiles_ s.
Proof.
  intros args' res s'. subst args' res s'.
  destruct (translationUnits_ s !! f) as [st|] eqn:Hf.
  - rewrite (rebuild_Some _ _ _ _ _ _ Hf).
    destruct (parseAndStore_spec w f args lw
                (withUnits (delete f (translationUnits_ s))
                   (addCall (DisposeCall (tu st)) s)))
      as (H1 & H2 & H3 & H4 & H5 & H6 & H7).
    simpl in *. unfold parseResult in *. simpl in *.
    rewrite H1, H2, H3, H4, H5, H6, H7.
    by rewrite <- app_assoc.
  - rewrite (rebuild_None _ _ _ _ _ Hf).
    destruct (parseAndStore_spec w f args lw s)
      as (H1 & H2 & H3 & H4 & H5 & H6 & H7).
    rewrite H1, H2, H3, H4, H5, H6, H7. simpl.
    by rewrite (delete_id _ _ Hf).
Qed.

Lemma Inv_indexable s w f st :
  Inv s → translationUnits_ s !! f = Some st →
  fetchArgs s w f = compileArgs st → indexable s w f.
Proof.
  intros [Ha _ _ _] Hf E Hdb. unfold fetchArgs in E. rewrite Hdb in E.
  rewrite E. by eapply Ha.
Qed.

Lemma getTranslationUnit_cases f a w s : GetCase f a w s.
Proof.
  destruct (indexable_dec s w f) as [Hi|[Hdb Hnil]].
  2:{ eapply case_unindexable; try done.
      by apply getTranslationUnit_unindexable. }
  destruct (translationUnits_ s !! f) as [st|] eqn:Hf.
  2:{ apply case_rebuild; [done| |by apply getTranslationUnit_new].
      intros st Hst. congruence. }
  destruct (decide (fetchArgs s w f = compileArgs st)) as [Ha|Ha].
  2:{ apply case_rebuild; [done| |].
      - intros st' Hst. congruence.
      - by apply (getTranslationUnit_args_changed _ _ _ _ st). }
  assert (Hcases : (a = true ∨
                     FilePath_lastWriteTime w f ≠ lastWriteTime st) ∨
                    (a = false ∧
                     FilePath_lastWriteTime w f = lastWriteTime st)).
  { destruct a; [by left; left|].
    destruct (decide (FilePath_lastWriteTime w f = lastWriteTime st));
      [by right|by left; right]. }
  destruct Hcases as [Hwhy|[-> Ht]].
  - destruct (decide (reparseRet w (tu st) (unsavedFiles_ s) = 0)) as [Hr|Hr].
    + eapply case_reparse_ok; try done.
      by apply getTranslationUnit_reparse_ok.
    + eapply case_reparse_failed; try done.
      by apply getTranslationUnit_reparse_failed.
  - eapply case_hit; try done. by apply getTranslationUnit_hit.
Qed.

(** The way through a failed reparse, spelled out. *)
Lemma getTranslationUnit_reparse_failed_spec f a w s st :
  indexable s w f →
  translationUnits_ s !! f = Some st →
  fetchArgs s w f = compileArgs st →
  a = true ∨ FilePath_lastWriteTime w f ≠ lastWriteTime st →
  reparseRet w (tu st) (unsavedFiles_ s) ≠ 0 →
  let args' := addVerboseArg (verbose_ s) (fetchArgs s w f) in
  let res := parseResult w f args' s in
  let s' := (getTranslationUnit f a w s).2 in
  (getTranslationUnit f a w s).1 = mkHandle f <$> res ∧
  newCalls s s' =
    [ReparseCall (tu st) (unsavedFiles_ s)
       (reparseRet w (tu st) (unsavedFiles_ s));
     DisposeCall (tu st);
     ParseCall f args' (unsavedFiles_ s) res] ∧
  translationUnits_ s' !! f =
    mkStored args' (FilePath_lastWriteTime w f) <$> res ∧
  errorLog s' =
    errorLog s ++ ["Error re-parsing translation unit " +:+ f] ++
    match res with
    | Some _ => []
    | None => ["Error parsing translation unit " +:+ f]
    end.
Proof.
  intros Hi Hf Ha Hwhy Hr args' res s'. subst s'.
  rewrite (getTranslationUnit_reparse_failed _ _ _ _ st) by done.
  match goal with |- context [rebuild ?w ?f ?x ?y ?z] =>
    destruct (rebuild_spec w f x y z) as (H1 & H2 & H3 & H4 & _) end.
  simpl in H1, H2, H3, H4. rewrite Hf in H2. simpl in H2.
  fold args' in H1, H2, H3, H4.
  change (parseResult w f args' (addError _ (addCall _ s)))
    with res in H1, H2, H3, H4.
  split; [done|]. split.
  { apply newCalls_app. rewrite H2. by rewrite <- app_assoc. }
  split.
  { rewrite H3. destruct res; simpl.
    - by rewrite lookup_insert_eq.
    - by rewrite lookup_delete_eq. }
  rewrite H4. by rewrite <- app_assoc.
Qed.

(** The way through a rebuild without reparse, spelled out. *)
Lemma getTranslationUnit_rebuild_spec f a w s :
  indexable s w f →
  (∀ st, translationUnits_ s !! f = Some st →
         fetchArgs s w f ≠ compileArgs st) →
  let args' := addVerboseArg (verbose_ s) (fetchArgs s w f) in
  let res := parseResult w f args' s in
  let s' := (getTranslationUnit f a w s).2 in
  (getTranslationUnit f a w s).1 = mkHandle f <$> res ∧
  newCalls s s' =
    disposalOf (translationUnits_ s !! f) ++
    [ParseCall f args' (unsavedFiles_ s) res] ∧
  translationUnits_ s' !! f =
    mkStored args' (FilePath_lastWriteTime w f) <$> res ∧
  errorLog s' =
    errorLog s ++
    match res with
    | Some _ => []
    | None => ["Error parsing translation unit " +:+ f]
    end.
Proof.
  intros Hi Hne args' res s'. subst s'.
  assert (E : getTranslationUnit f a w s =
              rebuild w f (fetchArgs s w f) (FilePath_lastWriteTime w f) s).
  { destruct (translationUnits_ s !! f) as [st|] eqn:Hf.
    - apply (getTranslationUnit_args_changed _ _ _ _ st); auto.
    - by apply getTranslationUnit_new. }
  rewrite E.
  destruct (rebuild_spec w f (fetchArgs s w f) (FilePath_lastWriteTime w f) s)
    as (H1 & H2 & H3 & H4 & _).
  fold args' in H1, H2, H3, H4. fold res in H1, H2, H3, H4.
  split; [done|]. split; [by apply newCalls_app|]. split; [|done].
  rewrite H3. destruct res; simpl.
  - by rewrite lookup_insert_eq.
  - by rewrite lookup_delete_eq.
Qed.

(** The configuration and the overlay are never written. *)
Lemma getTranslationUnit_fixed f a w s :
  verbose_ (getTranslationUnit f a w s).2 = verbose_ s ∧
  compilationDB_ (getTranslationUnit f a w s).2 = compilationDB_ s ∧
  unsavedFiles_ (getTranslationUnit f a w s).2 = unsavedFiles_ s.
Proof.
  destruct (getTranslationUnit_cases f a w s)
    as [_ _ E|st _ _ _ _ _ E|st _ _ _ _ _ E|st _ _ _ _ _ E|_ _ E];
    rewrite E; try done.
  - match goal with |- context [rebuild ?w ?f ?x ?y ?z] =>
      destruct (rebuild_spec w f x y z) as (_ & _ & _ & _ & H5 & H6 & H7) end.
    by rewrite H5, H6, H7.
  - destruct (rebuild_spec w f (fetchArgs s w f)
                (FilePath_lastWriteTime w f) s)
      as (_ & _ & _ & _ & H5 & H6 & H7).
    by rewrite H5, H6, H7.
Qed.

Lemma addVerboseArg_quiet v args : v < 2 → addVerboseArg v args = args.
Proof. intros H. unfold addVerboseArg. case_bool_decide; [lia|done]. Qed.

Lemma addVerboseArg_verbose v args :
  2 ≤ v → addVerboseArg v args = args ++ ["-v"].
Proof. intros H. unfold addVerboseArg. by case_bool_decide. Qed.

(** * The cache-hit path *)

(** C4. With a record present, [alwaysReparse] false, the fetched arguments
    equal to the stored ones and the file time equal to the stored time,
    [getTranslationUnit] returns a handle on the stored unit and leaves the
    whole state as it was: no libclang call is made.  Two such calls in a
    row therefore make no parse or reparse call at all, hence at most
    one. *)
Theorem cache_hit_makes_no_call s f w w' st :
  reachable s →
  translationUnits_ s !! f = Some st →
  fetchArgs s w f = compileArgs st →
  FilePath_lastWriteTime w f = lastWriteTime st →
  fetchArgs s w' f = compileArgs st →
  FilePath_lastWriteTime w' f = lastWriteTime st →
  getTranslationUnit f false w s = (Some (mkHandle f (tu st)), s) ∧
  newCalls s (getTranslationUnit f false w s).2 = [] ∧
  let s2 := (getTranslationUnit f false w'
               (getTranslationUnit f false w s).2).2 in
  (countCalls isParse (newCalls s s2) +
   countCalls isReparse (newCalls s s2) ≤ 1)%nat.
Proof.
  intros Hr Hf Ha Ht Ha' Ht'. apply reachable_Inv in Hr.
  assert (H1 : getTranslationUnit f false w s =
               (Some (mkHandle f (tu st)), s)).
  { apply getTranslationUnit_hit; try done. by eapply Inv_indexable. }
  assert (H2 : getTranslationUnit f false w' s =
               (Some (mkHandle f (tu st)), s)).
  { apply getTranslationUnit_hit; try done. by eapply Inv_indexable. }
  rewrite H1. simpl. rewrite H2. simpl. rewrite newCalls_same.
  split; [done|]. split; [done|]. unfold countCalls. simpl. lia.
Qed.

Lemma cache_hit_makes_no_call_witness :
  getTranslationUnit "a.cpp" false ex_w_ok ex_cached =
    (Some (mkHandle "a.cpp" 0), ex_cached) ∧
  newCalls ex_cached
    (getTranslationUnit "a.cpp" false ex_w_ok ex_cached).2 = [] ∧
  (countCalls isParse
     (newCalls ex_cached
        (getTranslationUnit "a.cpp" false ex_w_ok
           (getTranslationUnit "a.cpp" false ex_w_ok ex_cached).2).2) +
   countCalls isReparse
     (newCalls ex_cached
        (getTranslationUnit "a.cpp" false ex_w_ok
           (getTranslationUnit "a.cpp" false ex_w_ok ex_cached).2).2)
   ≤ 1)%nat.
Proof.
  apply (cache_hit_makes_no_call ex_cached "a.cpp" ex_w_ok ex_w_ok ex_stored).
  - apply reach_get, reach_new.
  - vm_compute. reflexivity.
  - reflexivity.
  - reflexivity.
  - reflexivity.
  - reflexivity.
Defined.

(** * The unindexable short-circuit *)

(** C9. When the argument provider answers with an empty list,
    [getTranslationUnit] returns the empty handle and the state it was
    given: no parse, reparse or dispose call, and every record, that of the
    path included, is as before, whatever [alwaysReparse], the file time
    and the record are. *)
Theorem unindexable_touches_nothing s f a w :
  hasCompileArgsFn (compilationDB_ s) = true →
  compileArgsFor w f = [] →
  getTranslationUnit f a w s = (None, s) ∧
  newCalls s (getTranslationUnit f a w s).2 = [] ∧
  translationUnits_ (getTranslationUnit f a w s).2 !! f =
    translationUnits_ s !! f.
Proof.
  intros Hdb Hnil.
  rewrite (getTranslationUnit_unindexable _ _ _ _ Hdb Hnil). simpl.
  by rewrite newCalls_same.
Qed.

Lemma unindexable_touches_nothing_witness :
  getTranslationUnit "a.cpp" true ex_w_unindexable ex_cached =
    (None, ex_cached) ∧
  newCalls ex_cached
    (getTranslationUnit "a.cpp" true ex_w_unindexable ex_cached).2 = [] ∧
  translationUnits_
    (getTranslationUnit "a.cpp" true ex_w_unindexable ex_cached).2 !! "a.cpp"
  = translationUnits_ ex_cached !! "a.cpp".
Proof.
  apply (unindexable_touches_nothing ex_cached "a.cpp" true ex_w_unindexable).
  - reflexivity.
  - reflexivity.
Defined.

(** * Forced reparse *)

(** C10. With a record whose arguments and time both match the fresh ones,
    a call with [alwaysReparse = true] is not answered from the cache: its
    first libclang call is a reparse of the stored unit, and when that
    reparse succeeds it is the only call and the stored unit is returned. *)
Theorem forced_call_reparses s f w st :
  reachable s →
  translationUnits_ s !! f = Some st →
  fetchArgs s w f = compileArgs st →
  FilePath_lastWriteTime w f = lastWriteTime st →
  ∃ rest,
    newCalls s (getTranslationUnit f true w s).2 =
      ReparseCall (tu st) (unsavedFiles_ s)
        (reparseRet w (tu st) (unsavedFiles_ s)) :: rest ∧
    (reparseRet w (tu st) (unsavedFiles_ s) = 0 →
     rest = [] ∧
     (getTranslationUnit f true w s).1 = Some (mkHandle f (tu st))).
Proof.
  intros Hr Hf Ha Ht. apply reachable_Inv in Hr.
  pose proof (Inv_indexable _ _ _ _ Hr Hf Ha) as Hi.
  destruct (decide (reparseRet w (tu st) (unsavedFiles_ s) = 0)) as [E|E].
  - exists []. rewrite (getTranslationUnit_reparse_ok _ _ _ _ st); auto.
    simpl. split; [|done]. rewrite E. by apply newCalls_app.
  - destruct (getTranslationUnit_reparse_failed_spec f true w s st)
      as (_ & H & _); auto.
    eexists. split; [exact H|]. done.
Qed.

Lemma forced_call_reparses_witness :
  ∃ rest,
    newCalls ex_cached (getTranslationUnit "a.cpp" true ex_w_ok ex_cached).2 =
      ReparseCall 0 [] 0 :: rest ∧
    (reparseRet ex_w_ok 0 [] = 0 →
     rest = [] ∧
     (getTranslationUnit "a.cpp" true ex_w_ok ex_cached).1 =
       Some (mkHandle "a.cpp" 0)).
Proof.
  apply (forced_call_reparses ex_cached "a.cpp" ex_w_ok ex_stored).
  - apply reach_get, reach_new.
  - vm_compute. reflexivity.
  - reflexivity.
  - reflexivity.
Defined.

(** * A failed parse *)

(** C8. Whenever a call of [getTranslationUnit] parses the file anew and
    libclang returns [NULL], the call logs ["Error parsing translation unit
    <file>"], returns the empty handle, and leaves the path without a
    record; a record that was there before has had its unit disposed in the
    same call, right before the parse was tried. *)
Theorem failed_parse_leaves_no_record s f a w args us :
  ParseCall f args us None ∈ newCalls s (getTranslationUnit f a w s).2 →
  (getTranslationUnit f a w s).1 = None ∧
  translationUnits_ (getTranslationUnit f a w s).2 !! f = None ∧
  last (errorLog (getTranslationUnit f a w s).2) =
    Some ("Error parsing translation unit " +:+ f) ∧
  ∀ st, translationUnits_ s !! f = Some st →
        ∃ pre, newCalls s (getTranslationUnit f a w s).2 =
               pre ++ [DisposeCall (tu st); ParseCall f args us None].
Proof.
  intros Hin.
  destruct (getTranslationUnit_cases f a w s)
    as [_ _ E|st _ _ _ _ _ E|st _ _ _ _ _ E|st Hi Hf Ha Hwhy Hr _|Hi Hne _].
  - rewrite E in Hin. simpl in Hin. rewrite newCalls_same in Hin.
    by apply elem_of_nil in Hin.
  - rewrite E in Hin. simpl in Hin. rewrite newCalls_same in Hin.
    by apply elem_of_nil in Hin.
  - rewrite E in Hin. simpl in Hin.
    rewrite (newCalls_app _ _ [ReparseCall (tu st) (unsavedFiles_ s) 0])
      in Hin by done.
    apply list_elem_of_singleton in Hin. discriminate.
  - destruct (getTranslationUnit_reparse_failed_spec f a w s st)
      as (H1 & H2 & H3 & H4); auto.
    rewrite H2 in Hin. rewrite H1, H2, H3, H4.
    assert (ParseCall f args us None =
            ParseCall f (addVerboseArg (verbose_ s) (fetchArgs s w f))
              (unsavedFiles_ s)
              (parseResult w f
                 (addVerboseArg (verbose_ s) (fetchArgs s w f)) s)) as Hc.
    { repeat (apply elem_of_cons in Hin as [Hin|Hin]; try discriminate);
        [done|by apply elem_of_nil in Hin]. }
    injection Hc as <- <- <-.
    simpl. repeat split; try done.
    + by rewrite last_app.
    + intros st' Hst'. assert (st' = st) as -> by congruence.
      by eexists [_].
  - destruct (getTranslationUnit_rebuild_spec f a w s)
      as (H1 & H2 & H3 & H4); auto.
    rewrite H2 in Hin. rewrite H1, H2, H3, H4.
    assert (ParseCall f args us None =
            ParseCall f (addVerboseArg (verbose_ s) (fetchArgs s w f))
              (unsavedFiles_ s)
              (parseResult w f
                 (addVerboseArg (verbose_ s) (fetchArgs s w f)) s)) as Hc.
    { destruct (translationUnits_ s !! f); simpl in Hin;
        repeat (apply elem_of_cons in Hin as [Hin|Hin]; try discriminate);
        try done; by apply elem_of_nil in Hin. }
    injection Hc as <- <- <-.
    simpl. repeat split; try done.
    + by rewrite last_snoc.
    + intros st' ->. by exists [].
Qed.

Lemma failed_parse_leaves_no_record_witness :
  (getTranslationUnit "a.cpp" false ex_w_parse_fails ex_cached).1 = None ∧
  translationUnits_
    (getTranslationUnit "a.cpp" false ex_w_parse_fails ex_cached).2 !! "a.cpp"
  = None ∧
  last (errorLog (getTranslationUnit "a.cpp" false ex_w_parse_fails
                    ex_cached).2) =
    Some ("Error parsing translation unit " +:+ "a.cpp") ∧
  ∀ st, translationUnits_ ex_cached !! "a.cpp" = Some st →
        ∃ pre, newCalls ex_cached
                 (getTranslationUnit "a.cpp" false ex_w_parse_fails
                    ex_cached).2 =
               pre ++ [DisposeCall (tu st); ParseCall "a.cpp" ["-O2"] [] None].
Proof.
  apply (failed_parse_leaves_no_record ex_cached "a.cpp" false
           ex_w_parse_fails ["-O2"] []).
  vm_compute. apply list_elem_of_further, list_elem_of_here.
Defined.

(** * Changed arguments *)

Lemma fetchArgs_after f a w s w' g :
  fetchArgs (getTranslationUnit f a w s).2 w' g = fetchArgs s w' g.
Proof.
  unfold fetchArgs.
  destruct (getTranslationUnit_fixed f a w s) as (_ & -> & _). done.
Qed.

Lemma indexable_after f a w s w' g :
  indexable s w' g → indexable (getTranslationUnit f a w s).2 w' g.
Proof.
  unfold indexable.
  destruct (getTranslationUnit_fixed f a w s) as (_ & -> & _). done.
Qed.

(** C5, what fails: a provider that answers with the empty list gives
    arguments that differ from every stored list, and the call then returns
    at line 150 without disposing or parsing anything. *)
Lemma changed_args_rebuild_counterexample :
  translationUnits_ ex_cached !! "a.cpp" = Some ex_stored ∧
  fetchArgs ex_cached ex_w_unindexable "a.cpp" ≠ compileArgs ex_stored ∧
  newCalls ex_cached
    (getTranslationUnit "a.cpp" false ex_w_unindexable ex_cached).2 = [] ∧
  translationUnits_
    (getTranslationUnit "a.cpp" false ex_w_unindexable ex_cached).2 !! "a.cpp"
  = Some ex_stored ∧
  ¬ (countCalls isDispose
       (newCalls ex_cached
          (getTranslationUnit "a.cpp" false ex_w_unindexable ex_cached).2)
     = 1%nat ∧
     countCalls isParse
       (newCalls ex_cached
          (getTranslationUnit "a.cpp" false ex_w_unindexable ex_cached).2)
     = 1%nat).
Proof.
  split; [by vm_compute|]. split; [by vm_compute|].
  split; [by vm_compute|]. split; [by vm_compute|].
  intros (H & _). vm_compute in H. discriminate.
Qed.

(** C5, amended. With a record present and fresh arguments that pass the
    test of line 149 (they are not empty, or no provider is set) and differ
    from the stored ones, the call makes exactly two libclang calls: it
    disposes the stored unit and parses the file from scratch with the
    fresh arguments.  It never reparses, whatever the file time and
    [alwaysReparse] are, and the record is replaced by that of the new
    unit, or gone when the parse failed. *)
Theorem changed_args_rebuild s f a w st :
  translationUnits_ s !! f = Some st →
  indexable s w f →
  fetchArgs s w f ≠ compileArgs st →
  let args' := addVerboseArg (verbose_ s) (fetchArgs s w f) in
  let res := parseResult w f args' s in
  let s' := (getTranslationUnit f a w s).2 in
  newCalls s s' =
    [DisposeCall (tu st); ParseCall f args' (unsavedFiles_ s) res] ∧
  countCalls isReparse (newCalls s s') = 0%nat ∧
  (getTranslationUnit f a w s).1 = mkHandle f <$> res ∧
  translationUnits_ s' !! f =
    mkStored args' (FilePath_lastWriteTime w f) <$> res.
Proof.
  intros Hf Hi Hne args' res s'.
  destruct (getTranslationUnit_rebuild_spec f a w s) as (H1 & H2 & H3 & _).
  { done. }
  { intros st' Hst'. congruence. }
  rewrite Hf in H2. simpl in H2. subst s'. rewrite H2. done.
Qed.

Lemma changed_args_rebuild_witness :
  newCalls ex_cached
    (getTranslationUnit "a.cpp" false ex_w_new_args ex_cached).2 =
    [DisposeCall 0; ParseCall "a.cpp" ["-O2"] [] (Some 1%nat)] ∧
  countCalls isReparse
    (newCalls ex_cached
       (getTranslationUnit "a.cpp" false ex_w_new_args ex_cached).2) = 0%nat ∧
  (getTranslationUnit "a.cpp" false ex_w_new_args ex_cached).1 =
    Some (mkHandle "a.cpp" 1) ∧
  translationUnits_
    (getTranslationUnit "a.cpp" false ex_w_new_args ex_cached).2 !! "a.cpp"
  = Some (mkStored ["-O2"] 100 1).
Proof.
  apply (changed_args_rebuild ex_cached "a.cpp" false ex_w_new_args ex_stored).
  - vm_compute. reflexivity.
  - intros _. discriminate.
  - discriminate.
Defined.

(** * A failed reparse *)

(** C1, what fails: after a failed reparse the function does not return;
    it runs on into the rebuild, which disposes the stored unit and parses
    again. *)
Lemma failed_reparse_counterexample :
  translationUnits_ ex_cached !! "a.cpp" = Some ex_stored ∧
  fetchArgs ex_cached ex_w_forced_bad "a.cpp" = compileArgs ex_stored ∧
  reparseRet ex_w_forced_bad (tu ex_stored) (unsavedFiles_ ex_cached) ≠ 0 ∧
  newCalls ex_cached
    (getTranslationUnit "a.cpp" true ex_w_forced_bad ex_cached).2 =
    [ReparseCall 0 [] 1; DisposeCall 0;
     ParseCall "a.cpp" ["-I."] [] (Some 1%nat)] ∧
  (getTranslationUnit "a.cpp" true ex_w_forced_bad ex_cached).1 =
    Some (mkHandle "a.cpp" 1) ∧
  translationUnits_
    (getTranslationUnit "a.cpp" true ex_w_forced_bad ex_cached).2 !! "a.cpp"
  = Some (mkStored ["-I."] 100 1) ∧
  ¬ ((getTranslationUnit "a.cpp" true ex_w_forced_bad ex_cached).1 = None ∧
     translationUnits_
       (getTranslationUnit "a.cpp" true ex_w_forced_bad ex_cached).2
       !! "a.cpp" = Some ex_stored ∧
     countCalls isDispose
       (newCalls ex_cached
          (getTranslationUnit "a.cpp" true ex_w_forced_bad ex_cached).2)
     = 0%nat ∧
     countCalls isParse
       (newCalls ex_cached
          (getTranslationUnit "a.cpp" true ex_w_forced_bad ex_cached).2)
     = 0%nat).
Proof.
  split; [by vm_compute|]. split; [by vm_compute|].
  split; [by vm_compute|]. split; [by vm_compute|].
  split; [by vm_compute|]. split; [by vm_compute|].
  intros (H & _). vm_compute in H. discriminate.
Qed.

(** C1, amended. With a record whose arguments equal the fresh ones, when
    the reparse fails the call logs ["Error re-parsing translation unit
    <file>"] and then rebuilds: it disposes the stored unit, removes the
    record and parses from scratch.  When that parse succeeds the new unit
    is stored and returned, and (below verbosity 2) a following call with
    the same arguments and time is a hit on the new unit; when it fails the
    call logs again, returns the empty handle and the path has no
    record. *)
Theorem failed_reparse_rebuilds s f a w st :
  reachable s →
  translationUnits_ s !! f = Some st →
  fetchArgs s w f = compileArgs st →
  a = true ∨ FilePath_lastWriteTime w f ≠ lastWriteTime st →
  reparseRet w (tu st) (unsavedFiles_ s) ≠ 0 →
  let args' := addVerboseArg (verbose_ s) (fetchArgs s w f) in
  let res := parseResult w f args' s in
  let s' := (getTranslationUnit f a w s).2 in
  (getTranslationUnit f a w s).1 = mkHandle f <$> res ∧
  newCalls s s' =
    [ReparseCall (tu st) (unsavedFiles_ s)
       (reparseRet w (tu st) (unsavedFiles_ s));
     DisposeCall (tu st);
     ParseCall f args' (unsavedFiles_ s) res] ∧
  translationUnits_ s' !! f =
    mkStored args' (FilePath_lastWriteTime w f) <$> res ∧
  errorLog s' =
    errorLog s ++ ["Error re-parsing translation unit " +:+ f] ++
    match res with
    | Some _ => []
    | None => ["Error parsing translation unit " +:+ f]
    end ∧
  (verbose_ s < 2 → ∀ u w',
     res = Some u →
     fetchArgs s w' f = fetchArgs s w f →
     FilePath_lastWriteTime w' f = FilePath_lastWriteTime w f →
     getTranslationUnit f false w' s' = (Some (mkHandle f u), s')).
Proof.
  intros Hr Hf Ha Hwhy Hret args' res s'. apply reachable_Inv in Hr.
  pose proof (Inv_indexable _ _ _ _ Hr Hf Ha) as Hi.
  destruct (getTranslationUnit_reparse_failed_spec f a w s st)
    as (H1 & H2 & H3 & H4); auto.
  repeat (split; [done|]).
  intros Hq u w' Hres Ha' Ht'.
  fold args' res s' in H3. rewrite Hres in H3. simpl in H3.
  subst args'. rewrite addVerboseArg_quiet in H3 by done.
  assert (Hidx : indexable s' w' f).
  { apply indexable_after.
    apply (Inv_indexable _ _ _ st); [done..|congruence]. }
  rewrite (getTranslationUnit_hit f w' s' _ Hidx H3); [done|..].
  - simpl. subst s'. by rewrite fetchArgs_after.
  - done.
Qed.

Lemma failed_reparse_rebuilds_witness :
  (getTranslationUnit "a.cpp" true ex_w_forced_bad ex_cached).1 =
    Some (mkHandle "a.cpp" 1) ∧
  newCalls ex_cached
    (getTranslationUnit "a.cpp" true ex_w_forced_bad ex_cached).2 =
    [ReparseCall 0 [] 1; DisposeCall 0;
     ParseCall "a.cpp" ["-I."] [] (Some 1%nat)] ∧
  translationUnits_
    (getTranslationUnit "a.cpp" true ex_w_forced_bad ex_cached).2 !! "a.cpp"
  = Some (mkStored ["-I."] 100 1) ∧
  errorLog (getTranslationUnit "a.cpp" true ex_w_forced_bad ex_cached).2 =
    ["Error re-parsing translation unit a.cpp"] ∧
  (0 < 2 → ∀ u w',
     Some 1%nat = Some u →
     fetchArgs ex_cached w' "a.cpp" = ["-I."] →
     FilePath_lastWriteTime w' "a.cpp" = 100 →
     getTranslationUnit "a.cpp" false w'
       (getTranslationUnit "a.cpp" true ex_w_forced_bad ex_cached).2 =
     (Some (mkHandle "a.cpp" u),
      (getTranslationUnit "a.cpp" true ex_w_forced_bad ex_cached).2)).
Proof.
  apply (failed_reparse_rebuilds ex_cached "a.cpp" true ex_w_forced_bad
           ex_stored).
  - apply reach_get, reach_new.
  - vm_compute. reflexivity.
  - reflexivity.
  - left. reflexivity.
  - discriminate.
Defined.

(** * A second call *)

(** Below verbosity 2, once a call has returned a unit, a second call with
    the same arguments and file time and [alwaysReparse = false] is
    answered from the cache, whichever way the first call took.  (At
    verbosity 2 or more this fails, see [verbose_rebuilds_every_time]; and
    after a call that returned the empty handle nothing is stored.) *)
Lemma second_call_hits s f a w w' h :
  reachable s →
  verbose_ s < 2 →
  (getTranslationUnit f a w s).1 = Some h →
  fetchArgs s w' f = fetchArgs s w f →
  FilePath_lastWriteTime w' f = FilePath_lastWriteTime w f →
  getTranslationUnit f false w' (getTranslationUnit f a w s).2 =
  (Some h, (getTranslationUnit f a w s).2).
Proof.
  intros Hr Hq Hres Ha' Ht'. apply reachable_Inv in Hr.
  assert (Hkey : ∀ u,
    h = mkHandle f u →
    indexable s w f →
    translationUnits_ (getTranslationUnit f a w s).2 !! f =
      Some (mkStored (fetchArgs s w f) (FilePath_lastWriteTime w f) u) →
    getTranslationUnit f false w' (getTranslationUnit f a w s).2 =
    (Some h, (getTranslationUnit f a w s).2)).
  { intros u -> Hi Hst.
    assert (Hidx : indexable (getTranslationUnit f a w s).2 w' f).
    { apply indexable_after. unfold indexable, fetchArgs in *.
      intros Hfn. rewrite Hfn in Ha'. rewrite Ha'. by apply Hi. }
    rewrite (getTranslationUnit_hit _ _ _ _ Hidx Hst); [done|..].
    - by rewrite fetchArgs_after.
    - done. }
  destruct (getTranslationUnit_cases f a w s)
    as [_ _ E|st Hi Hf Ha _ Ht E|st Hi Hf Ha _ _ E
       |st Hi Hf Ha Hwhy Hret _|Hi Hne _].
  - rewrite E in Hres. discriminate.
  - apply (Hkey (tu st)); [|done|].
    + rewrite E in Hres. by injection Hres.
    + rewrite E. simpl. rewrite Hf, Ha, Ht. by destruct st.
  - apply (Hkey (tu st)); [|done|].
    + rewrite E in Hres. by injection Hres.
    + rewrite E. simpl. by rewrite lookup_insert_eq, Ha.
  - destruct (getTranslationUnit_reparse_failed_spec f a w s st)
      as (H1 & _ & H3 & _); auto.
    rewrite addVerboseArg_quiet in H1, H3 by done.
    rewrite Hres in H1.
    destruct (parseResult w f (fetchArgs s w f) s) as [u|]; [|done].
    apply (Hkey u); [by injection H1|done..].
  - destruct (getTranslationUnit_rebuild_spec f a w s)
      as (H1 & _ & H3 & _); auto.
    rewrite addVerboseArg_quiet in H1, H3 by done.
    rewrite Hres in H1.
    destruct (parseResult w f (fetchArgs s w f) s) as [u|]; [|done].
    apply (Hkey u); [by injection H1|done..].
Qed.

(** * A file changed on disk *)

(** C6, what fails: when the reparse of the touched file fails, the call
    also disposes the stored unit and parses again. *)
Lemma touched_file_counterexample :
  translationUnits_ ex_cached !! "a.cpp" = Some ex_stored ∧
  fetchArgs ex_cached ex_w_touched_bad "a.cpp" = compileArgs ex_stored ∧
  FilePath_lastWriteTime ex_w_touched_bad "a.cpp" ≠ lastWriteTime ex_stored ∧
  countCalls isReparse
    (newCalls ex_cached
       (getTranslationUnit "a.cpp" false ex_w_touched_bad ex_cached).2)
  = 1%nat ∧
  countCalls isDispose
    (newCalls ex_cached
       (getTranslationUnit "a.cpp" false ex_w_touched_bad ex_cached).2)
  = 1%nat ∧
  countCalls isParse
    (newCalls ex_cached
       (getTranslationUnit "a.cpp" false ex_w_touched_bad ex_cached).2)
  = 1%nat ∧
  ¬ (countCalls isReparse
       (newCalls ex_cached
          (getTranslationUnit "a.cpp" false ex_w_touched_bad ex_cached).2)
     = 1%nat ∧
     countCalls isDispose
       (newCalls ex_cached
          (getTranslationUnit "a.cpp" false ex_w_touched_bad ex_cached).2)
     = 0%nat ∧
     countCalls isParse
       (newCalls ex_cached
          (getTranslationUnit "a.cpp" false ex_w_touched_bad ex_cached).2)
     = 0%nat).
Proof.
  split; [by vm_compute|]. split; [by vm_compute|].
  split; [by vm_compute|]. split; [by vm_compute|].
  split; [by vm_compute|]. split; [by vm_compute|].
  intros (_ & H & _). vm_compute in H. discriminate.
Qed.

(** C6, amended. With a record whose arguments equal the fresh ones and a
    file time that differs from the stored one, the call issues exactly one
    reparse.  When libclang reports success that is the only call (no
    dispose, no parse), the stored unit is returned and the stored time
    becomes the new file time.  When it reports failure the call goes on to
    one dispose and one parse. *)
Theorem touched_file_reparses_once s f a w st :
  reachable s →
  translationUnits_ s !! f = Some st →
  fetchArgs s w f = compileArgs st →
  FilePath_lastWriteTime w f ≠ lastWriteTime st →
  let s' := (getTranslationUnit f a w s).2 in
  countCalls isReparse (newCalls s s') = 1%nat ∧
  (reparseRet w (tu st) (unsavedFiles_ s) = 0 →
   newCalls s s' = [ReparseCall (tu st) (unsavedFiles_ s) 0] ∧
   countCalls isDispose (newCalls s s') = 0%nat ∧
   countCalls isParse (newCalls s s') = 0%nat ∧
   (getTranslationUnit f a w s).1 = Some (mkHandle f (tu st)) ∧
   translationUnits_ s' !! f =
     Some (mkStored (compileArgs st) (FilePath_lastWriteTime w f) (tu st))) ∧
  (reparseRet w (tu st) (unsavedFiles_ s) ≠ 0 →
   countCalls isDispose (newCalls s s') = 1%nat ∧
   countCalls isParse (newCalls s s') = 1%nat).
Proof.
  intros Hr Hf Ha Ht s'. apply reachable_Inv in Hr.
  pose proof (Inv_indexable _ _ _ _ Hr Hf Ha) as Hi.
  destruct (decide (reparseRet w (tu st) (unsavedFiles_ s) = 0)) as [E|E].
  - subst s'. rewrite (getTranslationUnit_reparse_ok _ _ _ _ st); auto.
    simpl.
    rewrite (newCalls_app _ _ [ReparseCall (tu st) (unsavedFiles_ s) 0])
      by done.
    split; [done|]. split; [|done]. intros _.
    repeat (split; [done|]). simpl. by rewrite lookup_insert_eq.
  - destruct (getTranslationUnit_reparse_failed_spec f a w s st)
      as (_ & H2 & _); auto.
    subst s'. rewrite H2. split; [done|]. split; [done|]. done.
Qed.

Lemma touched_file_reparses_once_witness :
  countCalls isReparse
    (newCalls ex_cached
       (getTranslationUnit "a.cpp" false ex_w_touched ex_cached).2) = 1%nat ∧
  (reparseRet ex_w_touched 0 [] = 0 →
   newCalls ex_cached
     (getTranslationUnit "a.cpp" false ex_w_touched ex_cached).2 =
     [ReparseCall 0 [] 0] ∧
   countCalls isDispose
     (newCalls ex_cached
        (getTranslationUnit "a.cpp" false ex_w_touched ex_cached).2)
   = 0%nat ∧
   countCalls isParse
     (newCalls ex_cached
        (getTranslationUnit "a.cpp" false ex_w_touched ex_cached).2)
   = 0%nat ∧
   (getTranslationUnit "a.cpp" false ex_w_touched ex_cached).1 =
     Some (mkHandle "a.cpp" 0) ∧
   translationUnits_
     (getTranslationUnit "a.cpp" false ex_w_touched ex_cached).2 !! "a.cpp"
   = Some (mkStored ["-I."] 200 0)) ∧
  (reparseRet ex_w_touched 0 [] ≠ 0 →
   countCalls isDispose
     (newCalls ex_cached
        (getTranslationUnit "a.cpp" false ex_w_touched ex_cached).2)
   = 1%nat ∧
   countCalls isParse
     (newCalls ex_cached
        (getTranslationUnit "a.cpp" false ex_w_touched ex_cached).2)
   = 1%nat).
Proof.
  apply (touched_file_reparses_once ex_cached "a.cpp" false ex_w_touched
           ex_stored).
  - apply reach_get, reach_new.
  - vm_compute. reflexivity.
  - reflexivity.
  - discriminate.
Defined.

(** * A file that cannot be read *)

(** C2, what fails: for a file whose time cannot be read the call goes on
    as for any other file; on a fresh index it parses the file, stores a
    record and returns its unit, and logs nothing. *)
Lemma unreadable_file_counterexample :
  statTime ex_w_unreadable "a.cpp" = None ∧
  translationUnits_ ex_new !! "a.cpp" = None ∧
  (getTranslationUnit "a.cpp" false ex_w_unreadable ex_new).1 =
    Some (mkHandle "a.cpp" 0) ∧
  translationUnits_
    (getTranslationUnit "a.cpp" false ex_w_unreadable ex_new).2 !! "a.cpp"
  = Some (mkStored ["-I."] 0 0) ∧
  errorLog (getTranslationUnit "a.cpp" false ex_w_unreadable ex_new).2 = [] ∧
  ¬ ((getTranslationUnit "a.cpp" false ex_w_unreadable ex_new).1 = None ∧
     translationUnits_
       (getTranslationUnit "a.cpp" false ex_w_unreadable ex_new).2 !! "a.cpp"
     = translationUnits_ ex_new !! "a.cpp").
Proof.
  split; [by vm_compute|]. split; [by vm_compute|].
  split; [by vm_compute|]. split; [by vm_compute|].
  split; [by vm_compute|].
  intros (H & _). vm_compute in H. discriminate.
Qed.

(** C2, amended. [getTranslationUnit] does not test whether the file time
    could be read.  For a path whose time cannot be read it takes the value
    [lastWriteTime()] returns for such a file as the time and behaves, in
    result and in state, exactly as for a readable file with that time: it
    does not return early and logs no error for it.  With no record, an
    indexable path and a successful parse it stores a record carrying that
    value and returns the new unit. *)
Theorem unreadable_file_is_not_checked s f a w :
  statTime w f = None →
  getTranslationUnit f a w s =
    getTranslationUnit f a (withStatTime f (Some (timeOnError w)) w) s ∧
  (translationUnits_ s !! f = None →
   indexable s w f →
   parseSucceeds w f (addVerboseArg (verbose_ s) (fetchArgs s w f))
     (unsavedFiles_ s) = true →
   (getTranslationUnit f a w s).1 = Some (mkHandle f (nextUnit s)) ∧
   translationUnits_ (getTranslationUnit f a w s).2 !! f =
     Some (mkStored (addVerboseArg (verbose_ s) (fetchArgs s w f))
             (timeOnError w) (nextUnit s)) ∧
   errorLog (getTranslationUnit f a w s).2 = errorLog s).
Proof.
  intros Hstat.
  assert (Ht : FilePath_lastWriteTime w f = timeOnError w).
  { unfold FilePath_lastWriteTime. by rewrite Hstat. }
  split.
  - assert (Ht' : FilePath_lastWriteTime
                    (withStatTime f (Some (timeOnError w)) w) f
                  = timeOnError w).
    { unfold FilePath_lastWriteTime, withStatTime. simpl.
      by rewrite decide_True. }
    unfold getTranslationUnit. rewrite Ht, Ht'. reflexivity.
  - intros Hf Hi Hp.
    destruct (getTranslationUnit_rebuild_spec f a w s)
      as (H1 & _ & H3 & H4).
    { done. }
    { intros st Hst. congruence. }
    unfold parseResult in H1, H3, H4. rewrite Hp in H1, H3, H4.
    rewrite H1, H3, H4, Ht. simpl. by rewrite app_nil_r.
Qed.

Lemma unreadable_file_is_not_checked_witness :
  getTranslationUnit "a.cpp" false ex_w_unreadable ex_new =
    getTranslationUnit "a.cpp" false
      (withStatTime "a.cpp" (Some 0) ex_w_unreadable) ex_new ∧
  (translationUnits_ ex_new !! "a.cpp" = None →
   indexable ex_new ex_w_unreadable "a.cpp" →
   parseSucceeds ex_w_unreadable "a.cpp" ["-I."] [] = true →
   (getTranslationUnit "a.cpp" false ex_w_unreadable ex_new).1 =
     Some (mkHandle "a.cpp" 0) ∧
   translationUnits_
     (getTranslationUnit "a.cpp" false ex_w_unreadable ex_new).2 !! "a.cpp"
   = Some (mkStored ["-I."] 0 0) ∧
   errorLog (getTranslationUnit "a.cpp" false ex_w_unreadable ex_new).2
   = []).
Proof.
  apply (unreadable_file_is_not_checked ex_new "a.cpp" false ex_w_unreadable).
  reflexivity.
Defined.

(** * Verbose mode *)

Lemma snoc_ne {A} (l : list A) x : l ++ [x] ≠ l.
Proof.
  intros E. apply (f_equal length) in E. rewrite length_app in E.
  simpl in E. lia.
Qed.

Lemma successfulBuild_inv f a w s :
  successfulBuild (newCalls s (getTranslationUnit f a w s).2) = true →
  indexable s w f ∧
  ∃ u, translationUnits_ (getTranslationUnit f a w s).2 !! f =
       Some (mkStored (addVerboseArg (verbose_ s) (fetchArgs s w f))
               (FilePath_lastWriteTime w f) u).
Proof.
  intros Hb.
  destruct (getTranslationUnit_cases f a w s)
    as [_ _ E|st _ _ _ _ _ E|st _ _ _ _ _ E|st Hi Hf Ha Hwhy Hr _|Hi Hne _].
  - rewrite E in Hb. simpl in Hb. by rewrite newCalls_same in Hb.
  - rewrite E in Hb. simpl in Hb. by rewrite newCalls_same in Hb.
  - rewrite E in Hb. simpl in Hb.
    by rewrite (newCalls_app _ _ [ReparseCall (tu st) (unsavedFiles_ s) 0])
      in Hb.
  - destruct (getTranslationUnit_reparse_failed_spec f a w s st)
      as (_ & H2 & H3 & _); auto.
    rewrite H2 in Hb. rewrite H3. split; [done|].
    destruct (parseResult _ _ _ _) as [u|]; [|done]. by exists u.
  - destruct (getTranslationUnit_rebuild_spec f a w s)
      as (_ & H2 & H3 & _); auto.
    rewrite H2 in Hb. rewrite H3. split; [done|].
    unfold successfulBuild in Hb. rewrite last_snoc in Hb.
    destruct (parseResult _ _ _ _) as [u|]; [|done]. by exists u.
Qed.

Lemma verbose_step f a w s args prev :
  2 ≤ verbose_ s →
  indexable s w f →
  fetchArgs s w f = args →
  translationUnits_ s !! f = None ∧ prev = None ∨
  (∃ st, translationUnits_ s !! f = Some st ∧
         compileArgs st = args ++ ["-v"] ∧ prev = Some (tu st)) →
  let s' := (getTranslationUnit f a w s).2 in
  ∃ us r,
    newCalls s s' =
      match prev with Some u => [DisposeCall u] | None => [] end ++
      [ParseCall f (args ++ ["-v"]) us r] ∧
    (translationUnits_ s' !! f = None ∧ r = None ∨
     (∃ st, translationUnits_ s' !! f = Some st ∧
            compileArgs st = args ++ ["-v"] ∧ r = Some (tu st))).
Proof.
  intros Hv Hi Ha Hrec s'.
  destruct (getTranslationUnit_rebuild_spec f a w s) as (_ & H2 & H3 & _).
  { done. }
  { intros st Hst. destruct Hrec as [[Hn _]|(st' & Hs & Hc & _)];
      [congruence|].
    assert (st' = st) as -> by congruence.
    rewrite Ha, Hc. intros E. by apply (snoc_ne args "-v"). }
  rewrite Ha, (addVerboseArg_verbose _ _ Hv) in H2, H3.
  exists (unsavedFiles_ s), (parseResult w f (args ++ ["-v"]) s).
  split.
  - subst s'. rewrite H2.
    by destruct Hrec as [[-> ->]|(st & -> & _ & ->)].
  - subst s'. rewrite H3. destruct (parseResult _ _ _ _) as [u|]; simpl.
    + right. by eexists.
    + by left.
Qed.

Lemma verbose_steps f args ws : ∀ s prev,
  2 ≤ verbose_ s →
  Forall (λ wa : World * bool,
            indexable s wa.1 f ∧ fetchArgs s wa.1 f = args) ws →
  translationUnits_ s !! f = None ∧ prev = None ∨
  (∃ st, translationUnits_ s !! f = Some st ∧
         compileArgs st = args ++ ["-v"] ∧ prev = Some (tu st)) →
  rebuildsEvery f (args ++ ["-v"]) prev (callTraces f ws s).
Proof.
  induction ws as [|[w a] ws IH]; intros s prev Hv Hall Hrec; [done|].
  apply Forall_cons in Hall as [[Hi Ha] Hall]. simpl in Hi, Ha.
  destruct (verbose_step f a w s args prev Hv Hi Ha Hrec)
    as (us & r & Hcalls & Hrec').
  simpl. exists us, r. split; [done|].
  destruct (getTranslationUnit_fixed f a w s) as (Hv' & Hdb & _).
  apply IH; [by rewrite Hv'| |done].
  eapply Forall_impl; [exact Hall|]. intros [w' a'] [Hi' Ha']. simpl in *.
  split; [by apply indexable_after|by rewrite fetchArgs_after].
Qed.

Lemma rebuildsEvery_counts f args trs : ∀ prev,
  rebuildsEvery f args prev trs →
  Forall (λ tr, countCalls isReparse tr = 0%nat ∧
                countCalls isParse tr = 1%nat) trs.
Proof.
  induction trs as [|tr trs IH]; intros prev H; [done|].
  destruct H as (us & r & -> & H). constructor; [|by eapply IH].
  by destruct prev.
Qed.

(** C3. At verbosity 2 or more, take a call that parsed the file and stored
    its record.  The stored list is the provider's list with ["-v"]
    appended, so it differs from the provider's list.  Every later call for
    which the provider answers with the same list, whatever the file time
    and [alwaysReparse] are, is neither a hit nor a reparse: it disposes the
    unit stored by the call before it and parses the file from scratch,
    making one parse call and no reparse call each time. *)
Theorem verbose_rebuilds_every_time s f a0 w0 ws :
  2 ≤ verbose_ s →
  successfulBuild (newCalls s (getTranslationUnit f a0 w0 s).2) = true →
  Forall (λ wa : World * bool, fetchArgs s wa.1 f = fetchArgs s w0 f) ws →
  let s1 := (getTranslationUnit f a0 w0 s).2 in
  ∃ st,
    translationUnits_ s1 !! f = Some st ∧
    compileArgs st = fetchArgs s w0 f ++ ["-v"] ∧
    compileArgs st ≠ fetchArgs s w0 f ∧
    rebuildsEvery f (fetchArgs s w0 f ++ ["-v"]) (Some (tu st))
      (callTraces f ws s1) ∧
    Forall (λ tr, countCalls isReparse tr = 0%nat ∧
                  countCalls isParse tr = 1%nat) (callTraces f ws s1).
Proof.
  intros Hv Hb Hall s1.
  destruct (successfulBuild_inv f a0 w0 s Hb) as (Hi & u & Hst).
  rewrite (addVerboseArg_verbose _ _ Hv) in Hst.
  eexists. split; [exact Hst|]. simpl.
  split; [done|]. split; [apply snoc_ne|].
  destruct (getTranslationUnit_fixed f a0 w0 s) as (Hv' & Hdb & _).
  assert (Hre : rebuildsEvery f (fetchArgs s w0 f ++ ["-v"]) (Some u)
                  (callTraces f ws s1)).
  { apply verbose_steps.
    - subst s1. by rewrite Hv'.
    - eapply Forall_impl; [exact Hall|]. intros [w a] Ha. simpl in *.
      subst s1. rewrite fetchArgs_after. split; [|done].
      apply indexable_after. unfold indexable, fetchArgs in *.
      intros Hfn. rewrite Hfn in Ha. rewrite Ha. by apply Hi.
    - right. eexists. split; [exact Hst|]. done. }
  split; [done|]. by eapply rebuildsEvery_counts.
Qed.

Lemma verbose_rebuilds_every_time_witness :
  ∃ st,
    translationUnits_
      (getTranslationUnit "a.cpp" false ex_w_ok ex_new_verbose).2 !! "a.cpp"
    = Some st ∧
    compileArgs st = ["-I."] ++ ["-v"] ∧
    compileArgs st ≠ ["-I."] ∧
    rebuildsEvery "a.cpp" (["-I."] ++ ["-v"]) (Some (tu st))
      (callTraces "a.cpp" [(ex_w_ok, false); (ex_w_ok, false)]
         (getTranslationUnit "a.cpp" false ex_w_ok ex_new_verbose).2) ∧
    Forall (λ tr, countCalls isReparse tr = 0%nat ∧
                  countCalls isParse tr = 1%nat)
      (callTraces "a.cpp" [(ex_w_ok, false); (ex_w_ok, false)]
         (getTranslationUnit "a.cpp" false ex_w_ok ex_new_verbose).2).
Proof.
  apply (verbose_rebuilds_every_time ex_new_verbose "a.cpp" false ex_w_ok
           [(ex_w_ok, false); (ex_w_ok, false)]).
  - vm_compute. discriminate.
  - vm_compute. reflexivity.
  - repeat constructor.
Defined.

(** * One live unit per path *)

Lemma getTranslationUnit_extends f a w s :
  clangCalls (getTranslationUnit f a w s).2 =
  clangCalls s ++ newCalls s (getTranslationUnit f a w s).2.
Proof.
  assert (H : ∃ l, clangCalls (getTranslationUnit f a w s).2 =
                   clangCalls s ++ l).
  { destruct (getTranslationUnit_cases f a w s)
      as [_ _ E|st _ _ _ _ _ E|st _ _ _ _ _ E|st _ _ _ _ _ E|_ _ E];
      rewrite E.
    - exists []. by rewrite app_nil_r.
    - exists []. by rewrite app_nil_r.
    - by eexists.
    - match goal with |- context [rebuild ?w ?f ?x ?y ?z] =>
        destruct (rebuild_spec w f x y z) as (_ & H2 & _) end.
      rewrite H2. simpl. rewrite <- app_assoc. by eexists.
    - destruct (rebuild_spec w f (fetchArgs s w f)
                  (FilePath_lastWriteTime w f) s) as (_ & H2 & _).
      rewrite H2. by eexists. }
  destruct H as [l E]. by rewrite (newCalls_app _ _ _ E).
Qed.

Lemma newCalls_trans s s1 s2 l :
  clangCalls s1 = clangCalls s ++ newCalls s s1 →
  clangCalls s2 = clangCalls s1 ++ l →
  newCalls s s2 = newCalls s s1 ++ l.
Proof.
  intros E1 E2. apply newCalls_app. rewrite E2, E1. by rewrite <- app_assoc.
Qed.

Lemma getEach_cons f w a ws s :
  (getEach f ((w, a) :: ws) s).2 =
  (getEach f ws (getTranslationUnit f a w s).2).2.
Proof.
  simpl. unfold bind, ret. simpl.
  destruct (getTranslationUnit f a w s) as [r s1]. simpl.
  by destruct (getEach f ws s1).
Qed.

Lemma getEach_calls f ws : ∀ s,
  clangCalls (getEach f ws s).2 = clangCalls s ++ concat (callTraces f ws s).
Proof.
  induction ws as [|[w a] ws IH]; intros s.
  - simpl. by rewrite app_nil_r.
  - rewrite getEach_cons, IH. simpl.
    rewrite (getTranslationUnit_extends f a w s) at 1.
    by rewrite <- app_assoc.
Qed.

Lemma getEach_reachable f ws : ∀ s,
  reachable s → reachable (getEach f ws s).2.
Proof.
  induction ws as [|[w a] ws IH]; intros s Hr; [done|].
  rewrite getEach_cons. by apply IH, reach_get.
Qed.

Lemma countCalls_app g l1 l2 :
  countCalls g (l1 ++ l2) = (countCalls g l1 + countCalls g l2)%nat.
Proof. unfold countCalls. by rewrite List.filter_app, length_app. Qed.

(** The disposals of one call that ends in a successful parse: one when a
    record was there, none otherwise; and a record is there afterwards. *)
Lemma successfulBuild_disposals f a w s :
  successfulBuild (newCalls s (getTranslationUnit f a w s).2) = true →
  countCalls isDispose (newCalls s (getTranslationUnit f a w s).2) =
    length (disposalOf (translationUnits_ s !! f)) ∧
  is_Some (translationUnits_ (getTranslationUnit f a w s).2 !! f).
Proof.
  intros Hb.
  destruct (successfulBuild_inv f a w s Hb) as (_ & u & Hst).
  split; [|by eexists].
  destruct (getTranslationUnit_cases f a w s)
    as [_ _ E|st _ _ _ _ _ E|st _ _ _ _ _ E|st Hi Hf Ha Hwhy Hr _|Hi Hne _].
  - rewrite E in Hb. simpl in Hb. by rewrite newCalls_same in Hb.
  - rewrite E in Hb. simpl in Hb. by rewrite newCalls_same in Hb.
  - rewrite E in Hb. simpl in Hb.
    by rewrite (newCalls_app _ _ [ReparseCall (tu st) (unsavedFiles_ s) 0])
      in Hb.
  - destruct (getTranslationUnit_reparse_failed_spec f a w s st)
      as (_ & H2 & _); auto.
    rewrite H2, Hf. done.
  - destruct (getTranslationUnit_rebuild_spec f a w s)
      as (_ & H2 & _); auto.
    rewrite H2, countCalls_app. destruct (translationUnits_ s !! f); done.
Qed.

Lemma removeTranslationUnit_calls f s :
  clangCalls (removeTranslationUnit f s).2 =
  clangCalls s ++ disposalOf (translationUnits_ s !! f).
Proof.
  destruct (translationUnits_ s !! f) as [st|] eqn:Hf.
  - by rewrite (removeTranslationUnit_Some _ _ _ Hf).
  - rewrite (removeTranslationUnit_None _ _ Hf). simpl.
    by rewrite app_nil_r.
Qed.

Lemma rebuilds_then_remove f ws : ∀ s,
  Forall (λ tr, successfulBuild tr = true) (callTraces f ws s) →
  countCalls isDispose
    (newCalls s (removeTranslationUnit f (getEach f ws s).2).2) =
  (length ws + length (disposalOf (translationUnits_ s !! f)))%nat.
Proof.
  induction ws as [|[w a] ws IH]; intros s Hall.
  - simpl. rewrite (newCalls_app _ _ _ (removeTranslationUnit_calls f s)).
    by destruct (translationUnits_ s !! f).
  - simpl in Hall. apply Forall_cons in Hall as [Hb Hall].
    destruct (successfulBuild_disposals f a w s Hb) as [Hd [st1 Hs1]].
    specialize (IH _ Hall). rewrite Hs1 in IH. simpl in IH.
    rewrite getEach_cons.
    set (s1 := (getTranslationUnit f a w s).2) in *.
    set (s2 := (removeTranslationUnit f (getEach f ws s1).2).2) in *.
    assert (E2 : clangCalls s2 = clangCalls s1 ++ newCalls s1 s2).
    { subst s2. rewrite removeTranslationUnit_calls, getEach_calls.
      rewrite <- app_assoc. f_equal. symmetry. apply newCalls_app.
      rewrite removeTranslationUnit_calls, getEach_calls.
      by rewrite <- app_assoc. }
    rewrite (newCalls_trans s s1 s2 _
               (getTranslationUnit_extends f a w s) E2).
    rewrite countCalls_app, Hd, IH. simpl. lia.
Qed.

Lemma removeTranslationUnit_lookup f s :
  translationUnits_ (removeTranslationUnit f s).2 !! f = None.
Proof.
  destruct (translationUnits_ s !! f) as [st|] eqn:Hf.
  - rewrite (removeTranslationUnit_Some _ _ _ Hf). simpl.
    apply lookup_delete_eq.
  - by rewrite (removeTranslationUnit_None _ _ Hf).
Qed.

Lemma rebuild_other w f args lw s p :
  p ≠ f →
  translationUnits_ (rebuild w f args lw s).2 !! p = translationUnits_ s !! p.
Proof.
  intros Hne. destruct (rebuild_spec w f args lw s) as (_ & _ & H3 & _).
  rewrite H3. destruct (parseResult _ _ _ _).
  - rewrite lookup_insert_ne by done. by rewrite lookup_delete_ne.
  - by rewrite lookup_delete_ne.
Qed.

Lemma getTranslationUnit_other f a w s p :
  p ≠ f →
  translationUnits_ (getTranslationUnit f a w s).2 !! p =
  translationUnits_ s !! p.
Proof.
  intros Hne.
  destruct (getTranslationUnit_cases f a w s)
    as [_ _ E|st _ _ _ _ _ E|st _ _ _ _ _ E|st _ _ _ _ _ E|_ _ E];
    rewrite E; try done.
  - simpl. by rewrite lookup_insert_ne.
  - by rewrite rebuild_other.
  - by rewrite rebuild_other.
Qed.

Lemma getEach_other f ws p : ∀ s,
  p ≠ f →
  translationUnits_ (getEach f ws s).2 !! p = translationUnits_ s !! p.
Proof.
  induction ws as [|[w a] ws IH]; intros s Hne; [done|].
  rewrite getEach_cons, IH by done. by apply getTranslationUnit_other.
Qed.

Lemma removeTranslationUnit_other f s p :
  p ≠ f →
  translationUnits_ (removeTranslationUnit f s).2 !! p =
  translationUnits_ s !! p.
Proof.
  intros Hne. destruct (translationUnits_ s !! f) as [st|] eqn:Hf.
  - rewrite (removeTranslationUnit_Some _ _ _ Hf). simpl.
    by rewrite lookup_delete_ne.
  - by rewrite (removeTranslationUnit_None _ _ Hf).
Qed.

(** C7. In every state the index can reach, the map holds at most one
    record per path, the units alive in libclang are exactly the units of
    the records, each under its own path, and at every point of the call
    history no path has had two live units: a rebuild disposes the stored
    unit before it parses again.  From a state with no record for a path,
    N calls that each end in a successful parse, followed by the removal of
    the path, make exactly N dispose calls and leave alive exactly the
    units that were alive before. *)
Theorem one_live_unit_per_path s :
  reachable s →
  (∀ p st1 st2, translationUnits_ s !! p = Some st1 →
                translationUnits_ s !! p = Some st2 → st1 = st2) ∧
  (∀ u p, liveUnits (clangCalls s) !! u = Some p ↔
          ∃ st, translationUnits_ s !! p = Some st ∧ tu st = u) ∧
  (∀ cs1 cs2, clangCalls s = cs1 ++ cs2 → onePerPath (liveUnits cs1)) ∧
  (∀ f ws,
     translationUnits_ s !! f = None →
     Forall (λ tr, successfulBuild tr = true) (callTraces f ws s) →
     countCalls isDispose
       (newCalls s (removeTranslationUnit f (getEach f ws s).2).2)
     = length ws ∧
     liveUnits (clangCalls (removeTranslationUnit f (getEach f ws s).2).2)
     = liveUnits (clangCalls s)).
Proof.
  intros Hr. pose proof (reachable_Inv s Hr) as [Ha Ho Hb Hh].
  split; [intros; congruence|]. split; [done|]. split.
  { intros cs1 cs2 E. apply historyOk_onePerPath.
    rewrite E in Hh. by eapply historyOk_prefix. }
  intros f ws Hf Hall. split.
  { rewrite (rebuilds_then_remove f ws s Hall), Hf. simpl. lia. }
  set (s2 := (removeTranslationUnit f (getEach f ws s).2).2).
  assert (Hr2 : reachable s2) by by apply reach_remove, getEach_reachable.
  pose proof (reachable_Inv s2 Hr2) as [_ Ho2 _ _].
  assert (Hsame : ∀ p, translationUnits_ s2 !! p = translationUnits_ s !! p).
  { intros p. destruct (decide (p = f)) as [->|Hne].
    - subst s2. by rewrite removeTranslationUnit_lookup.
    - subst s2. rewrite removeTranslationUnit_other by done.
      by apply getEach_other. }
  apply map_eq. intros u. apply option_eq. intros p.
  rewrite Ho, Ho2. by setoid_rewrite Hsame.
Qed.

Lemma one_live_unit_per_path_witness :
  countCalls isDispose
    (newCalls ex_new
       (removeTranslationUnit "a.cpp"
          (getEach "a.cpp" ex_three_builds ex_new).2).2) = 3%nat ∧
  liveUnits
    (clangCalls
       (removeTranslationUnit "a.cpp"
          (getEach "a.cpp" ex_three_builds ex_new).2).2)
  = liveUnits (clangCalls ex_new).
Proof.
  pose proof (one_live_unit_per_path ex_new (reach_new _ _))
    as (_ & _ & _ & H).
  apply (H "a.cpp" ex_three_builds).
  - reflexivity.
  - repeat constructor.
Defined.

(** The count of C7 on three rebuilds of ["a.cpp"]. *)
Example three_rebuilds_three_disposals :
  Forall (λ tr, successfulBuild tr = true)
    (callTraces "a.cpp" ex_three_builds ex_new) ∧
  newCalls ex_new
    (removeTranslationUnit "a.cpp"
       (getEach "a.cpp" ex_three_builds ex_new).2).2 =
  [ParseCall "a.cpp" ["-I."] [] (Some 0%nat);
   DisposeCall 0; ParseCall "a.cpp" ["-O2"] [] (Some 1%nat);
   DisposeCall 1; ParseCall "a.cpp" ["-I."] [] (Some 2%nat);
   DisposeCall 2].
Proof.
  split.
  - repeat constructor.
  - by vm_compute.
Qed.

(** * Further properties of [getTranslationUnit] *)

(** A call for one file leaves the record of every other file as it
    was. *)
Theorem getTranslationUnit_keeps_other_files s f a w g :
  g ≠ f →
  translationUnits_ (getTranslationUnit f a w s).2 !! g =
  translationUnits_ s !! g.
Proof. apply getTranslationUnit_other. Qed.

Lemma getTranslationUnit_keeps_other_files_witness :
  translationUnits_
    (getTranslationUnit "b.cpp" true ex_w_parse_fails ex_two_files).2
    !! "a.cpp"
  = translationUnits_ ex_two_files !! "a.cpp".
Proof.
  apply (getTranslationUnit_keeps_other_files ex_two_files "b.cpp" true
           ex_w_parse_fails "a.cpp").
  discriminate.
Defined.

Lemma getIndexed_fold l : ∀ acc f,
  NoDup l.*1 →
  foldl (λ (units : gmap string CXTranslationUnit)
           (t : string * StoredTranslationUnit),
           match units !! t.1 with
           | Some _ => units
           | None => <[t.1 := tu t.2]> units
           end) acc l !! f =
  match acc !! f with
  | Some u => Some u
  | None => tu <$> (list_to_map l : gmap string StoredTranslationUnit) !! f
  end.
Proof.
  induction l as [|[k v] l IH]; intros acc f Hnd; simpl.
  - rewrite lookup_empty. by destruct (acc !! f).
  - apply NoDup_cons in Hnd as [Hk Hnd]. rewrite IH by done. simpl.
    destruct (acc !! k) eqn:Hacc.
    + destruct (acc !! f) eqn:Hf; [done|].
      rewrite lookup_insert_ne; [done|]. intros ->. congruence.
    + destruct (decide (k = f)) as [->|Hne].
      * rewrite !lookup_insert_eq. by rewrite Hacc.
      * by rewrite !lookup_insert_ne.
Qed.

Lemma getIndexed_lookup s f :
  getIndexedTranslationUnits s !! f = tu <$> translationUnits_ s !! f.
Proof.
  unfold getIndexedTranslationUnits.
  rewrite getIndexed_fold by apply NoDup_fst_map_to_list.
  by rewrite lookup_empty, list_to_map_to_list.
Qed.

(** [getIndexedTranslationUnits] lists exactly the files that have a
    record, each once and with the unit of its record: the loop neither
    drops nor overwrites an entry. *)
Theorem getIndexedTranslationUnits_lookup s :
  (∀ f, getIndexedTranslationUnits s !! f = tu <$> translationUnits_ s !! f) ∧
  dom (getIndexedTranslationUnits s) = dom (translationUnits_ s) ∧
  size (getIndexedTranslationUnits s) = size (translationUnits_ s).
Proof.
  assert (E : getIndexedTranslationUnits s = tu <$> translationUnits_ s).
  { apply map_eq. intros f. by rewrite getIndexed_lookup, lookup_fmap. }
  split; [apply getIndexed_lookup|]. rewrite E.
  split; [apply dom_fmap_L|apply map_size_fmap].
Qed.

(** Whenever [getTranslationUnit] returns a unit, the handle names the file
    asked for, and the record of that file holds the returned unit and the
    file time read in this call; [getIndexedTranslationUnits] lists the
    unit under the file. *)
Theorem returned_unit_is_stored s f a w h :
  (getTranslationUnit f a w s).1 = Some h →
  handleFile h = f ∧
  (∃ st, translationUnits_ (getTranslationUnit f a w s).2 !! f = Some st ∧
         tu st = handleUnit h ∧
         lastWriteTime st = FilePath_lastWriteTime w f) ∧
  getIndexedTranslationUnits (getTranslationUnit f a w s).2 !! f =
    Some (handleUnit h).
Proof.
  intros Hres.
  assert (H : handleFile h = f ∧
    ∃ st, translationUnits_ (getTranslationUnit f a w s).2 !! f = Some st ∧
          tu st = handleUnit h ∧
          lastWriteTime st = FilePath_lastWriteTime w f).
  { destruct (getTranslationUnit_cases f a w s)
      as [_ _ E|st Hi Hf Ha _ Ht E|st Hi Hf Ha _ _ E
         |st Hi Hf Ha Hwhy Hret _|Hi Hne _].
    - rewrite E in Hres. discriminate.
    - rewrite E in Hres |- *. injection Hres as <-. simpl. eauto.
    - rewrite E in Hres |- *. injection Hres as <-. simpl.
      split; [done|]. eexists. rewrite lookup_insert_eq. done.
    - destruct (getTranslationUnit_reparse_failed_spec f a w s st)
        as (H1 & _ & H3 & _); auto.
      rewrite Hres in H1. rewrite H3.
      destruct (parseResult _ _ _ _) as [u|]; [|done].
      injection H1 as ->. simpl. eauto.
    - destruct (getTranslationUnit_rebuild_spec f a w s)
        as (H1 & _ & H3 & _); auto.
      rewrite Hres in H1. rewrite H3.
      destruct (parseResult _ _ _ _) as [u|]; [|done].
      injection H1 as ->. simpl. eauto. }
  destruct H as (H1 & st & H2 & H3 & H4).
  split; [done|]. split; [eauto|].
  rewrite getIndexed_lookup, H2. simpl. by rewrite H3.
Qed.

Lemma returned_unit_is_stored_witness :
  handleFile (mkHandle "a.cpp" 0) = "a.cpp" ∧
  (∃ st, translationUnits_
           (getTranslationUnit "a.cpp" false ex_w_touched ex_cached).2
           !! "a.cpp" = Some st ∧
         tu st = handleUnit (mkHandle "a.cpp" 0) ∧
         lastWriteTime st = FilePath_lastWriteTime ex_w_touched "a.cpp") ∧
  getIndexedTranslationUnits
    (getTranslationUnit "a.cpp" false ex_w_touched ex_cached).2 !! "a.cpp" =
    Some (handleUnit (mkHandle "a.cpp" 0)).
Proof.
  apply (returned_unit_is_stored ex_cached "a.cpp" false ex_w_touched).
  vm_compute. reflexivity.
Defined.

(** [getTranslationUnit] returns the empty handle in two situations only:
    the provider gave no arguments, and then the state is untouched; or
    the file was parsed anew and the parse failed, and then the file has
    no record.  A hit or a reparse never ends in the empty handle. *)
Theorem empty_result_has_two_causes s f a w :
  (getTranslationUnit f a w s).1 = None →
  (hasCompileArgsFn (compilationDB_ s) = true ∧
   compileArgsFor w f = [] ∧
   (getTranslationUnit f a w s).2 = s) ∨
  (indexable s w f ∧
   translationUnits_ (getTranslationUnit f a w s).2 !! f = None ∧
   last (newCalls s (getTranslationUnit f a w s).2) =
     Some (ParseCall f (addVerboseArg (verbose_ s) (fetchArgs s w f))
             (unsavedFiles_ s) None)).
Proof.
  intros Hres.
  destruct (getTranslationUnit_cases f a w s)
    as [Hdb Hnil E|st _ _ _ _ _ E|st _ _ _ _ _ E
       |st Hi Hf Ha Hwhy Hret _|Hi Hne _].
  - left. by rewrite E.
  - rewrite E in Hres. discriminate.
  - rewrite E in Hres. discriminate.
  - right. destruct (getTranslationUnit_reparse_failed_spec f a w s st)
      as (H1 & H2 & H3 & _); auto.
    rewrite Hres in H1. rewrite H2, H3.
    by destruct (parseResult _ _ _ _).
  - right. destruct (getTranslationUnit_rebuild_spec f a w s)
      as (H1 & H2 & H3 & _); auto.
    rewrite Hres in H1. rewrite H2, H3, last_snoc.
    by destruct (parseResult _ _ _ _).
Qed.

Lemma empty_result_has_two_causes_witness :
  (hasCompileArgsFn (compilationDB_ ex_cached) = true ∧
   compileArgsFor ex_w_parse_fails "a.cpp" = [] ∧
   (getTranslationUnit "a.cpp" false ex_w_parse_fails ex_cached).2
   = ex_cached) ∨
  (indexable ex_cached ex_w_parse_fails "a.cpp" ∧
   translationUnits_
     (getTranslationUnit "a.cpp" false ex_w_parse_fails ex_cached).2
     !! "a.cpp" = None ∧
   last (newCalls ex_cached
           (getTranslationUnit "a.cpp" false ex_w_parse_fails ex_cached).2) =
     Some (ParseCall "a.cpp" ["-O2"] [] None)).
Proof.
  apply (empty_result_has_two_causes ex_cached "a.cpp" false
           ex_w_parse_fails).
  vm_compute. reflexivity.
Defined.


(** [getTranslationUnit] writes one line to the error log for each libclang
    call of its own that failed, and nothing else: the log only grows, and
    it grows by the number of failed parse and reparse calls. *)
Theorem one_log_line_per_failed_call s f a w :
  ∃ l, errorLog (getTranslationUnit f a w s).2 = errorLog s ++ l ∧
       length l =
       countCalls isFailedCall (newCalls s (getTranslationUnit f a w s).2).
Proof.
  destruct (getTranslationUnit_cases f a w s)
    as [_ _ E|st _ _ _ _ _ E|st Hi Hf Ha _ _ E
       |st Hi Hf Ha Hwhy Hret _|Hi Hne _].
  - exists []. rewrite E. simpl. by rewrite app_nil_r, newCalls_same.
  - exists []. rewrite E. simpl. by rewrite app_nil_r, newCalls_same.
  - exists []. rewrite E. simpl. rewrite app_nil_r.
    by rewrite (newCalls_app _ _ [ReparseCall (tu st) (unsavedFiles_ s) 0]).
  - destruct (getTranslationUnit_reparse_failed_spec f a w s st)
      as (_ & H2 & _ & H4); auto.
    eexists. split; [exact H4|]. rewrite H2.
    unfold countCalls. simpl. rewrite (bool_decide_eq_false_2 _ Hret).
    simpl. by destruct (parseResult _ _ _ _).
  - destruct (getTranslationUnit_rebuild_spec f a w s)
      as (_ & H2 & _ & H4); auto.
    eexists. split; [exact H4|]. rewrite H2, countCalls_app.
    replace (countCalls isFailedCall
               (disposalOf (translationUnits_ s !! f))) with 0%nat
      by by destruct (translationUnits_ s !! f).
    by destruct (parseResult _ _ _ _).
Qed.

(** [alwaysReparse] matters only for a record that is up to date: unless
    the file has a record with the fresh arguments and the current file
    time, a forced call and an unforced call do the same and return the
    same. *)
Theorem force_flag_matters_only_when_fresh s f w :
  (∀ st, translationUnits_ s !! f = Some st →
         fetchArgs s w f = compileArgs st →
         FilePath_lastWriteTime w f ≠ lastWriteTime st) →
  getTranslationUnit f true w s = getTranslationUnit f false w s.
Proof.
  intros Hstale.
  destruct (indexable_dec s w f) as [Hi|[Hdb Hnil]].
  2:{ by rewrite !getTranslationUnit_unindexable. }
  destruct (translationUnits_ s !! f) as [st|] eqn:Hf.
  2:{ by rewrite !getTranslationUnit_new. }
  destruct (decide (fetchArgs s w f = compileArgs st)) as [Ha|Ha].
  2:{ by rewrite !(getTranslationUnit_args_changed _ _ _ _ st). }
  specialize (Hstale st eq_refl Ha).
  destruct (decide (reparseRet w (tu st) (unsavedFiles_ s) = 0)) as [Hr|Hr].
  - by rewrite !(getTranslationUnit_reparse_ok _ _ _ _ st) by auto.
  - by rewrite !(getTranslationUnit_reparse_failed _ _ _ _ st) by auto.
Qed.

Lemma force_flag_matters_only_when_fresh_witness :
  getTranslationUnit "a.cpp" true ex_w_touched ex_cached =
  getTranslationUnit "a.cpp" false ex_w_touched ex_cached.
Proof.
  apply (force_flag_matters_only_when_fresh ex_cached "a.cpp" ex_w_touched).
  intros st Hst _. vm_compute in Hst. injection Hst as <-. discriminate.
Defined.

(** Below verbosity 2, a call that returned a unit has left the cache
    ready: the same request again, unforced and with the provider's
    arguments and the file time unchanged, returns the same unit without
    any libclang call and without changing the state, whichever way the
    first call took (hit, reparse, or rebuild). *)
Theorem repeated_call_is_answered_from_cache s f a w w' h :
  reachable s →
  verbose_ s < 2 →
  (getTranslationUnit f a w s).1 = Some h →
  fetchArgs s w' f = fetchArgs s w f →
  FilePath_lastWriteTime w' f = FilePath_lastWriteTime w f →
  let s1 := (getTranslationUnit f a w s).2 in
  (getTranslationUnit f false w' s1).1 = Some h ∧
  (getTranslationUnit f false w' s1).2 = s1 ∧
  newCalls s1 (getTranslationUnit f false w' s1).2 = [].
Proof.
  intros Hr Hq Hres Ha Ht s1. subst s1.
  rewrite (second_call_hits s f a w w' h Hr Hq Hres Ha Ht). simpl.
  by rewrite newCalls_same.
Qed.

Lemma repeated_call_is_answered_from_cache_witness :
  (getTranslationUnit "a.cpp" false ex_w_touched
     (getTranslationUnit "a.cpp" true ex_w_touched_bad ex_cached).2).1 =
    Some (mkHandle "a.cpp" 1) ∧
  (getTranslationUnit "a.cpp" false ex_w_touched
     (getTranslationUnit "a.cpp" true ex_w_touched_bad ex_cached).2).2 =
    (getTranslationUnit "a.cpp" true ex_w_touched_bad ex_cached).2 ∧
  newCalls (getTranslationUnit "a.cpp" true ex_w_touched_bad ex_cached).2
    (getTranslationUnit "a.cpp" false ex_w_touched
       (getTranslationUnit "a.cpp" true ex_w_touched_bad ex_cached).2).2
  = [].
Proof.
  apply (repeated_call_is_answered_from_cache ex_cached "a.cpp" true
           ex_w_touched_bad ex_w_touched (mkHandle "a.cpp" 1)).
  - apply reach_get, reach_new.
  - reflexivity.
  - vm_compute. reflexivity.
  - reflexivity.
  - reflexivity.
Defined.

(** * [removeTranslationUnit] *)

Lemma removeTranslationUnit_fixed' f s :
  verbose_ (removeTranslationUnit f s).2 = verbose_ s ∧
  compilationDB_ (removeTranslationUnit f s).2 = compilationDB_ s ∧
  unsavedFiles_ (removeTranslationUnit f s).2 = unsavedFiles_ s ∧
  nextUnit (removeTranslationUnit f s).2 = nextUnit s ∧
  errorLog (removeTranslationUnit f s).2 = errorLog s.
Proof.
  destruct (translationUnits_ s !! f) as [st|] eqn:Hf.
  - by rewrite (removeTranslationUnit_Some _ _ _ Hf).
  - by rewrite (removeTranslationUnit_None _ _ Hf).
Qed.

(** Removing a file drops it, and nothing else, from what
    [getIndexedTranslationUnits] lists; libclang sees the disposal of the
    file's unit when it had one and no call at all when it had none; the
    error log is not written. *)
Theorem removeTranslationUnit_effect s f :
  let s' := (removeTranslationUnit f s).2 in
  getIndexedTranslationUnits s' = delete f (getIndexedTranslationUnits s) ∧
  newCalls s s' =
    match getIndexedTranslationUnits s !! f with
    | Some u => [DisposeCall u]
    | None => []
    end ∧
  errorLog s' = errorLog s.
Proof.
  intros s'. subst s'. split; [|split].
  - apply map_eq. intros g.
    rewrite lookup_delete, !getIndexed_lookup.
    case_decide as Hg.
    + subst g. by rewrite removeTranslationUnit_lookup.
    + by rewrite removeTranslationUnit_other.
  - rewrite (newCalls_app _ _ _ (removeTranslationUnit_calls f s)).
    rewrite getIndexed_lookup.
    by destruct (translationUnits_ s !! f).
  - by destruct (removeTranslationUnit_fixed' f s) as (_ & _ & _ & _ & ?).
Qed.

(** Removing a file twice is removing it once: the second call finds no
    record, disposes nothing and leaves the state as it is. *)
Theorem removeTranslationUnit_twice s f :
  removeTranslationUnit f (removeTranslationUnit f s).2 =
  (tt, (removeTranslationUnit f s).2).
Proof.
  apply removeTranslationUnit_None, removeTranslationUnit_lookup.
Qed.



(** * [removeAllTranslationUnits] *)

Lemma removeAllTranslationUnits_state s :
  (removeAllTranslationUnits s).2 =
  withUnits ∅
    (mkState (verbose_ s) (compilationDB_ s) (translationUnits_ s)
       (unsavedFiles_ s) (nextUnit s)
       (clangCalls s ++ disposals (map_to_list (translationUnits_ s)))
       (errorLog s)).
Proof.
  unfold removeAllTranslationUnits, bind.
  pose proof (disposeEach_state (map_to_list (translationUnits_ s)) s) as E.
  destruct (disposeEach _ s) as [[] s']. simpl in E. by subst s'.
Qed.

Lemma countCalls_disposals l : countCalls isDispose (disposals l) = length l.
Proof.
  induction l as [|kv l IH]; [done|].
  change (disposals (kv :: l)) with ([DisposeCall (tu kv.2)] ++ disposals l).
  by rewrite countCalls_app, IH.
Qed.

(** [removeAllTranslationUnits] empties the index.  Its libclang calls are
    disposals only, as many as there were records, and the unit of every
    record is among them; the error log is not written. *)
Theorem removeAllTranslationUnits_effect s :
  let s' := (removeAllTranslationUnits s).2 in
  getIndexedTranslationUnits s' = ∅ ∧
  length (newCalls s s') = size (translationUnits_ s) ∧
  countCalls isDispose (newCalls s s') = size (translationUnits_ s) ∧
  (∀ f u, getIndexedTranslationUnits s !! f = Some u →
          DisposeCall u ∈ newCalls s s') ∧
  errorLog s' = errorLog s.
Proof.
  intros s'. subst s'. rewrite removeAllTranslationUnits_state.
  rewrite (newCalls_app _ _ (disposals (map_to_list (translationUnits_ s))))
    by done.
  split; [|split; [|split; [|split]]].
  - apply map_eq. intros g. rewrite getIndexed_lookup.
    simpl. by rewrite !lookup_empty.
  - unfold disposals. by rewrite length_fmap, length_map_to_list.
  - rewrite countCalls_disposals. apply length_map_to_list.
  - intros f u. rewrite getIndexed_lookup.
    destruct (translationUnits_ s !! f) as [st|] eqn:Hf; [|done].
    intros [= <-]. unfold disposals. apply list_elem_of_fmap.
    exists (f, st). split; [done|]. by apply elem_of_map_to_list.
  - done.
Qed.

(** In every state the index can reach, [removeAllTranslationUnits]
    disposes each stored unit exactly once and nothing else, and afterwards
    libclang holds no live unit at all. *)
Theorem removeAllTranslationUnits_disposes_each_once s :
  reachable s →
  let s' := (removeAllTranslationUnits s).2 in
  (∃ us, newCalls s s' = DisposeCall <$> us ∧ NoDup us ∧
         ∀ u, u ∈ us ↔ ∃ f, getIndexedTranslationUnits s !! f = Some u) ∧
  liveUnits (clangCalls s') = ∅.
Proof.
  intros Hr s'. pose proof (reachable_Inv s Hr) as [_ Ho _ _].
  split.
  - exists ((λ kv, tu kv.2) <$> map_to_list (translationUnits_ s)).
    split; [|split].
    + subst s'. rewrite removeAllTranslationUnits_state.
      rewrite (newCalls_app _ _
                 (disposals (map_to_list (translationUnits_ s)))) by done.
      unfold disposals. by rewrite <- list_fmap_compose.
    + apply NoDup_fmap_2_strong; [|apply NoDup_map_to_list].
      intros [f1 st1] [f2 st2] H1%elem_of_map_to_list H2%elem_of_map_to_list E.
      simpl in E.
      assert (L1 : liveUnits (clangCalls s) !! tu st1 = Some f1)
        by (apply Ho; eauto).
      assert (L2 : liveUnits (clangCalls s) !! tu st1 = Some f2)
        by (apply Ho; eauto).
      assert (f1 = f2) as -> by congruence. congruence.
    + intros u. rewrite list_elem_of_fmap. split.
      * intros ([f st] & -> & Hin%elem_of_map_to_list). exists f.
        rewrite getIndexed_lookup, Hin. done.
      * intros (f & Hf). rewrite getIndexed_lookup in Hf.
        destruct (translationUnits_ s !! f) as [st|] eqn:E; [|done].
        injection Hf as <-. exists (f, st). split; [done|].
        by apply elem_of_map_to_list.
  - pose proof (reachable_Inv s' (reach_removeAll s Hr)) as [_ Ho' _ _].
    apply map_eq. intros u. rewrite lookup_empty.
    destruct (liveUnits (clangCalls s') !! u) as [g|] eqn:E; [|done].
    apply Ho' in E as (st & Hst & _). subst s'.
    rewrite removeAllTranslationUnits_state in Hst. simpl in Hst.
    by rewrite lookup_empty in Hst.
Qed.

Lemma removeAllTranslationUnits_disposes_each_once_witness :
  (∃ us, newCalls ex_two_files (removeAllTranslationUnits ex_two_files).2 =
           DisposeCall <$> us ∧ NoDup us ∧
         ∀ u, u ∈ us ↔
              ∃ f, getIndexedTranslationUnits ex_two_files !! f = Some u) ∧
  liveUnits (clangCalls (removeAllTranslationUnits ex_two_files).2) = ∅.
Proof.
  apply (removeAllTranslationUnits_disposes_each_once ex_two_files).
  apply reach_get, reach_get, reach_new.
Defined.

(** A second [removeAllTranslationUnits] finds the index empty, makes no
    libclang call and leaves the state as it is. *)
Theorem removeAllTranslationUnits_twice s :
  removeAllTranslationUnits (removeAllTranslationUnits s).2 =
  (tt, (removeAllTranslationUnits s).2).
Proof.
  rewrite (surjective_pairing (removeAllTranslationUnits _)).
  f_equal; [by destruct (removeAllTranslationUnits _).1|].
  rewrite (removeAllTranslationUnits_state (removeAllTranslationUnits s).2).
  rewrite removeAllTranslationUnits_state. simpl.
  rewrite map_to_list_empty. simpl. by rewrite app_nil_r.
Qed.

(** * [primeEditorTranslationUnit] and [reprimeEditorTranslationUnit] *)

Lemma prime_without_record f w s :
  translationUnits_ s !! f = None →
  (primeEditorTranslationUnit f w s).2 = (getTranslationUnit f false w s).2.
Proof.
  intros Hf. unfold primeEditorTranslationUnit, bind, ret. rewrite Hf.
  by destruct (getTranslationUnit f false w s).
Qed.

Lemma reprime_with_record f w s st :
  translationUnits_ s !! f = Some st →
  (reprimeEditorTranslationUnit f w s).2 = (getTranslationUnit f false w s).2.
Proof.
  intros Hf. unfold reprimeEditorTranslationUnit, bind, ret. rewrite Hf.
  by destruct (getTranslationUnit f false w s).
Qed.


(** [reprimeEditorTranslationUnit] never adds a file to the index: every
    file with a record afterwards had one before. *)
Theorem reprime_never_adds s f w :
  dom (translationUnits_ (reprimeEditorTranslationUnit f w s).2) ⊆
  dom (translationUnits_ s).
Proof.
  intros g. rewrite !elem_of_dom.
  destruct (translationUnits_ s !! f) as [st|] eqn:Hf.
  - rewrite (reprime_with_record _ _ _ _ Hf).
    destruct (decide (g = f)) as [->|Hne].
    + intros _. by rewrite Hf.
    + by rewrite getTranslationUnit_other.
  - unfold reprimeEditorTranslationUnit. by rewrite Hf.
Qed.

(** Below verbosity 2, priming a file that had no record and then repriming
    it while neither its arguments nor its file time have changed costs one
    parse in all: when the prime stored a record, the reprime makes no
    libclang call and changes nothing. *)
Theorem reprime_after_prime_is_free s f w w' :
  reachable s →
  verbose_ s < 2 →
  translationUnits_ s !! f = None →
  is_Some (translationUnits_ (primeEditorTranslationUnit f w s).2 !! f) →
  fetchArgs s w' f = fetchArgs s w f →
  FilePath_lastWriteTime w' f = FilePath_lastWriteTime w f →
  reprimeEditorTranslationUnit f w' (primeEditorTranslationUnit f w s).2 =
  (tt, (primeEditorTranslationUnit f w s).2).
Proof.
  intros Hr Hq Hf [st Hst] Ha Ht.
  rewrite (prime_without_record _ _ _ Hf) in Hst |- *.
  assert (Hres : ∃ h, (getTranslationUnit f false w s).1 = Some h).
  { destruct (indexable_dec s w f) as [Hi|[Hdb Hnil]].
    - destruct (getTranslationUnit_rebuild_spec f false w s)
        as (H1 & _ & H3 & _); [done|intros st' Hst'; congruence|].
      rewrite H1. rewrite Hst in H3.
      destruct (parseResult _ _ _ _); [eauto|done].
    - rewrite getTranslationUnit_unindexable in Hst by done. simpl in Hst.
      congruence. }
  destruct Hres as [h Hres].
  pose proof (second_call_hits s f false w w' h Hr Hq Hres Ha Ht) as E.
  unfold reprimeEditorTranslationUnit, bind, ret. by rewrite Hst, E.
Qed.

Lemma reprime_after_prime_is_free_witness :
  reprimeEditorTranslationUnit "a.cpp" ex_w_ok
    (primeEditorTranslationUnit "a.cpp" ex_w_ok ex_new).2 =
  (tt, (primeEditorTranslationUnit "a.cpp" ex_w_ok ex_new).2).
Proof.
  apply (reprime_after_prime_is_free ex_new "a.cpp" ex_w_ok ex_w_ok).
  - apply reach_new.
  - reflexivity.
  - reflexivity.
  - vm_compute. eexists. reflexivity.
  - reflexivity.
  - reflexivity.
Defined.

(** * [getIndexedTranslationUnits] *)

(** In every state the index can reach, [getIndexedTranslationUnits] never
    lists one unit under two files. *)
Theorem getIndexedTranslationUnits_injective s f g u :
  reachable s →
  f ≠ g →
  getIndexedTranslationUnits s !! f = Some u →
  getIndexedTranslationUnits s !! g ≠ Some u.
Proof.
  intros Hr Hne Hf Hg. pose proof (reachable_Inv s Hr) as [_ Ho _ _].
  rewrite getIndexed_lookup in Hf, Hg.
  destruct (translationUnits_ s !! f) as [st1|] eqn:E1; [|done].
  destruct (translationUnits_ s !! g) as [st2|] eqn:E2; [|done].
  injection Hf as Hf. injection Hg as Hg.
  assert (L1 : liveUnits (clangCalls s) !! u = Some f) by (apply Ho; eauto).
  assert (L2 : liveUnits (clangCalls s) !! u = Some g) by (apply Ho; eauto).
  congruence.
Qed.

Lemma getIndexedTranslationUnits_injective_witness :
  getIndexedTranslationUnits ex_two_files !! "b.cpp" ≠ Some 0%nat.
Proof.
  apply (getIndexedTranslationUnits_injective ex_two_files "a.cpp" "b.cpp" 0).
  - apply reach_get, reach_get, reach_new.
  - discriminate.
  - vm_compute. reflexivity.
Defined.

(** * Any sequence of member functions *)

Lemma grows_refl s : grows s s.
Proof. by repeat split. Qed.

Lemma grows_trans s1 s2 s3 : grows s1 s2 → grows s2 s3 → grows s1 s3.
Proof.
  intros (A1 & A2 & A3 & A4 & A5 & A6) (B1 & B2 & B3 & B4 & B5 & B6).
  repeat split; try congruence; try (by etrans); lia.
Qed.

Lemma grows_parseAndStore w f args lw s :
  grows s (parseAndStore w f args lw s).2.
Proof.
  destruct (parseSucceeds w f (addVerboseArg (verbose_ s) args)
              (unsavedFiles_ s)) eqn:Hp.
  - rewrite (parseAndStore_ok _ _ _ _ _ Hp). repeat split; simpl;
      try done; try (by apply prefix_app_r); lia.
  - rewrite (parseAndStore_fail _ _ _ _ _ Hp). repeat split; simpl;
      try done; by apply prefix_app_r.
Qed.

Lemma grows_removeTranslationUnit f s :
  grows s (removeTranslationUnit f s).2.
Proof.
  destruct (translationUnits_ s !! f) as [st|] eqn:Hf.
  - rewrite (removeTranslationUnit_Some _ _ _ Hf). repeat split; simpl;
      try done. by apply prefix_app_r.
  - rewrite (removeTranslationUnit_None _ _ Hf). apply grows_refl.
Qed.

Lemma grows_rebuild w f args lw s : grows s (rebuild w f args lw s).2.
Proof.
  unfold rebuild, bind.
  pose proof (grows_removeTranslationUnit f s) as H.
  destruct (removeTranslationUnit f s) as [[] s1]. simpl in H.
  eapply grows_trans; [exact H|]. apply grows_parseAndStore.
Qed.

Lemma grows_getTranslationUnit f a w s :
  grows s (getTranslationUnit f a w s).2.
Proof.
  destruct (getTranslationUnit_cases f a w s)
    as [_ _ E|st _ _ _ _ _ E|st _ _ _ _ _ E|st _ _ _ _ _ E|_ _ E];
    rewrite E.
  - apply grows_refl.
  - apply grows_refl.
  - repeat split; simpl; try done. by apply prefix_app_r.
  - eapply grows_trans; [|apply grows_rebuild].
    repeat split; simpl; try done; by apply prefix_app_r.
  - apply grows_rebuild.
Qed.

Lemma grows_perform r s : grows s (perform r s).2.
Proof.
  destruct r as [f a w|f| |f w|f w]; simpl.
  - unfold bind, ret. pose proof (grows_getTranslationUnit f a w s).
    by destruct (getTranslationUnit f a w s).
  - apply grows_removeTranslationUnit.
  - rewrite removeAllTranslationUnits_state. repeat split; simpl; try done.
    by apply prefix_app_r.
  - unfold primeEditorTranslationUnit.
    destruct (translationUnits_ s !! f); [apply grows_refl|].
    unfold bind, ret. pose proof (grows_getTranslationUnit f false w s).
    by destruct (getTranslationUnit f false w s).
  - unfold reprimeEditorTranslationUnit.
    destruct (translationUnits_ s !! f); [|apply grows_refl].
    unfold bind, ret. pose proof (grows_getTranslationUnit f false w s).
    by destruct (getTranslationUnit f false w s).
Qed.

Lemma reachable_perform r s : reachable s → reachable (perform r s).2.
Proof.
  intros Hr. destruct r as [f a w|f| |f w|f w]; simpl.
  - unfold bind, ret. pose proof (reach_get s f a w Hr).
    by destruct (getTranslationUnit f a w s).
  - by apply reach_remove.
  - by apply reach_removeAll.
  - by apply reach_prime.
  - by apply reach_reprime.
Qed.

Lemma reachable_performAll rs : ∀ s, reachable s → reachable (performAll rs s).
Proof.
  induction rs as [|r rs IH]; intros s Hr; [done|].
  apply IH. by apply reachable_perform.
Qed.

(** Whatever member functions are called, in whatever order and worlds:
    the verbosity, the compilation database and the overlay are never
    written; the history of libclang calls and the error log are only ever
    appended to. *)
Theorem member_functions_only_append rs s :
  verbose_ (performAll rs s) = verbose_ s ∧
  compilationDB_ (performAll rs s) = compilationDB_ s ∧
  unsavedFiles_ (performAll rs s) = unsavedFiles_ s ∧
  clangCalls s `prefix_of` clangCalls (performAll rs s) ∧
  errorLog s `prefix_of` errorLog (performAll rs s).
Proof.
  assert (H : grows s (performAll rs s)).
  { revert s. induction rs as [|r rs IH]; intros s; [apply grows_refl|].
    eapply grows_trans; [apply (grows_perform r)|apply IH]. }
  destruct H as (H1 & H2 & H3 & H4 & H5 & _). done.
Qed.

(** * The life of an index object *)

(** An index is constructed, used through any sequence of member functions
    and destructed.  The destructor then disposes every unit still stored,
    each exactly once, and after them the index itself, unless
    [createIndex] had returned [NULL]; when it is done libclang holds no
    live unit of this index, and at no point of the object's life has a
    file had two live units. *)
Theorem destructor_leaves_nothing_alive db v created rs :
  let o := (SourceIndex_construct db v created).1 in
  let used := mkObject (performAll rs (members o)) (index_ o) in
  let s' := (SourceIndex_destruct used).1 in
  (∃ us, (SourceIndex_destruct used).2 =
           (UnitEvent <$> (DisposeCall <$> us)) ++
           match created with Some i => [IndexDisposed i] | None => [] end ∧
         NoDup us ∧
         ∀ u, u ∈ us ↔
              ∃ f, getIndexedTranslationUnits (members used) !! f = Some u) ∧
  liveUnits (clangCalls s') = ∅ ∧
  (∀ cs1 cs2, clangCalls s' = cs1 ++ cs2 → onePerPath (liveUnits cs1)).
Proof.
  intros o used s'.
  assert (Hr : reachable (members used)).
  { apply reachable_performAll, reach_new. }
  assert (Hr' : reachable s') by by apply reach_removeAll.
  pose proof (reachable_Inv _ Hr) as [_ Ho _ _].
  pose proof (reachable_Inv _ Hr') as [_ Ho' _ Hh'].
  assert (Hs' : s' = (removeAllTranslationUnits (members used)).2) by done.
  split; [|split].
  - exists ((λ kv, tu kv.2) <$> map_to_list (translationUnits_ (members used))).
    split; [|split].
    + unfold SourceIndex_destruct. simpl. f_equal. f_equal.
      rewrite removeAllTranslationUnits_state.
      rewrite (newCalls_app _ _
        (disposals (map_to_list (translationUnits_ (members used)))))
        by done.
      unfold disposals. by rewrite <- list_fmap_compose.
    + apply NoDup_fmap_2_strong; [|apply NoDup_map_to_list].
      intros [f1 st1] [f2 st2] H1%elem_of_map_to_list H2%elem_of_map_to_list E.
      simpl in E.
      assert (L1 : liveUnits (clangCalls (members used)) !! tu st1 = Some f1)
        by (apply Ho; eauto).
      assert (L2 : liveUnits (clangCalls (members used)) !! tu st1 = Some f2)
        by (apply Ho; eauto).
      assert (f1 = f2) as -> by congruence. congruence.
    + intros u. rewrite list_elem_of_fmap. split.
      * intros ([f st] & -> & Hin%elem_of_map_to_list). exists f.
        rewrite getIndexed_lookup, Hin. done.
      * intros (f & Hf). rewrite getIndexed_lookup in Hf.
        destruct (translationUnits_ (members used) !! f) as [st|] eqn:E;
          [|done].
        injection Hf as <-. exists (f, st). split; [done|].
        by apply elem_of_map_to_list.
  - apply map_eq. intros u. rewrite lookup_empty.
    destruct (liveUnits (clangCalls s') !! u) as [g|] eqn:E; [|done].
    apply Ho' in E as (st & Hst & _). rewrite Hs' in Hst.
    rewrite removeAllTranslationUnits_state in Hst. simpl in Hst.
    by rewrite lookup_empty in Hst.
  - intros cs1 cs2 E. apply historyOk_onePerPath.
    rewrite E in Hh'. by eapply historyOk_prefix.
Qed.

(** * The session's index *)

Lemma onRSourceIndexAll_cons env r l p :
  onRSourceIndexAll ((env, r) :: l) p =
  onRSourceIndexAll l (Some (perform r (rSourceIndex env p).1).2).
Proof. reflexivity. Qed.

Lemma onRSourceIndexAll_Some l : ∀ s,
  reachable s →
  ∃ s', onRSourceIndexAll l (Some s) = Some s' ∧ reachable s' ∧
        verbose_ s' = verbose_ s ∧ compilationDB_ s' = compilationDB_ s.
Proof.
  induction l as [|[env r] l IH]; intros s Hr; [by exists s|].
  rewrite onRSourceIndexAll_cons. simpl.
  destruct (IH (perform r s).2) as (s' & E & Hr' & Hv & Hdb).
  { by apply reachable_perform. }
  exists s'. split; [done|]. split; [done|].
  destruct (grows_perform r s) as (Gv & Gdb & _). split; congruence.
Qed.

(** The session index is created by the first call of [rSourceIndex()] and
    never again: after any number of uses the pointer is set, and the index
    still has the verbosity and the compilation database that were read at
    that first call, whatever the user setting has become since.  The
    object is one the member functions can reach, so all that holds of
    reachable states holds of it. *)
Theorem session_index_is_created_once env0 r0 l :
  ∃ s, onRSourceIndexAll ((env0, r0) :: l) None = Some s ∧
       verbose_ s = clangVerbose env0 ∧
       compilationDB_ s = rCompilationDatabase env0 ∧
       reachable s.
Proof.
  rewrite onRSourceIndexAll_cons. simpl.
  set (s0 := newSourceIndex (rCompilationDatabase env0) (clangVerbose env0)).
  destruct (onRSourceIndexAll_Some l (perform r0 s0).2)
    as (s & E & Hr & Hv & Hdb).
  { apply reachable_perform, reach_new. }
  exists s. split; [done|].
  destruct (grows_perform r0 s0) as (Gv & Gdb & _).
  split; [by rewrite Hv, Gv|]. split; [by rewrite Hdb, Gdb|done].
Qed.
